(** * Orlik-Solomon algebras: a shallow embedding of
    [sage/algebras/orlik_solomon.py]

    The class [OrlikSolomonAlgebra] is embedded as follows.

    - Ground-set elements are natural numbers; a [frozenset] of elements
      is a [gset nat].  The source's set argument [S] is written [X] here
      ([S] is the successor of [nat]).
    - [self._sorting] is a finite map from elements to their index in the
      ordering; reading a missing key raises [KeyError].
    - [self._broken_circuits] is a Python [dict]: an association list in
      scan order whose keys are pairwise different ([dict_set]).
    - An element of the algebra is a finite map from basis indices to
      coefficients without zero entries; the base ring is [Z].
    - A call either returns, raises, or exhausts the recursion budget of
      the model ([res]). *)

From stdpp Require Import gmap strings list fin_maps pretty sorting.
From Stdlib Require Import ZArith Lia.

Local Open Scope Z_scope.
Set Warnings "-clear-no-such-hyp".

(** ** Results of Python calls *)

Inductive exn : Set := KeyError | ValueError | IndexError.

Inductive res (A : Type) : Type :=
  | Ok (a : A)
  | Raise (e : exn)
  | OutOfFuel.
Arguments Ok {A} a.
Arguments Raise {A} e.
Arguments OutOfFuel {A}.

#[global] Instance res_ret : MRet res := λ A a, Ok a.
#[global] Instance res_bind : MBind res := λ A B k m,
  match m with
  | Ok a => k a
  | Raise e => Raise e
  | OutOfFuel => OutOfFuel
  end.
#[global] Instance res_fmap : FMap res := λ A B f m,
  match m with
  | Ok a => Ok (f a)
  | Raise e => Raise e
  | OutOfFuel => OutOfFuel
  end.

(** [for x in l: acc = f(acc, x)], leaving at the first raise. *)
Fixpoint res_foldl {A B} (f : A → B → res A) (acc : A) (l : list B) : res A :=
  match l with
  | [] => Ok acc
  | x :: l' => acc' ← f acc x; res_foldl f acc' l'
  end.

(** [[f(x) for x in l]], leaving at the first raise. *)
Fixpoint res_mapM {A B} (f : A → res B) (l : list A) : res (list B) :=
  match l with
  | [] => Ok []
  | x :: l' => y ← f x; ys ← res_mapM f l'; Ok (y :: ys)
  end.

(** ** The graded free module: linear combinations of basis elements *)

Abbreviation lc := (gmap (gset nat) Z).

(** [self.zero()] *)
Definition zero : lc := ∅.

(** [self.monomial(m)] *)
Definition monomial (m : gset nat) : lc := {[ m := 1 ]}.

(** [x + y]: pointwise, a coefficient that cancels is dropped. *)
Definition lc_add (x y : lc) : lc :=
  union_with (λ a b, if decide (a + b = 0) then None else Some (a + b)) x y.

(** [c * x] for a ring element [c]. *)
Definition lc_scal (c : Z) (x : lc) : lc :=
  if decide (c = 0) then ∅ else Z.mul c <$> x.

(** The coefficient of [m] in [x]. *)
Definition coefficient (x : lc) (m : gset nat) : Z := default 0 (x !! m).

(** No stored coefficient is zero. *)
Definition lc_wf (x : lc) : Prop := ∀ m, x !! m ≠ Some 0.

(** [x * y] in the algebra: the bilinear extension of a product given on
    pairs of basis indices. *)
Definition lc_mul (pob : gset nat → gset nat → res lc) (x y : lc) : res lc :=
  res_foldl (λ acc '(ml, cl),
    res_foldl (λ acc '(mr, cr),
      p ← pob ml mr; Ok (lc_add acc (lc_scal (cl * cr) p)))
      acc (map_to_list y))
    zero (map_to_list x).

(** [(-1)**k] *)
Definition sign (k : nat) : Z := (-1) ^ Z.of_nat k.

(** ** Sorting by rank *)

(** [{x: i for i, x in enumerate(ordering)}]: a later occurrence of an
    element overwrites the index of an earlier one. *)
Fixpoint enumerate_from (i : nat) (ordering : list nat) (d : gmap nat nat)
  : gmap nat nat :=
  match ordering with
  | [] => d
  | x :: o => enumerate_from (S i) o (<[x := i]> d)
  end.

Definition enumerate_index (ordering : list nat) : gmap nat nat :=
  enumerate_from 0 ordering ∅.

(** One step of a stable insertion sort on (key, element) pairs. *)
Fixpoint insert_by_key (kx : nat * nat) (l : list (nat * nat))
  : list (nat * nat) :=
  match l with
  | [] => [kx]
  | ky :: l' =>
      if decide (kx.1 ≤ ky.1)%nat then kx :: ky :: l'
      else ky :: insert_by_key kx l'
  end.

(** [self._sorting[x]] *)
Definition rank_of (sorting : gmap nat nat) (x : nat) : res (nat * nat) :=
  match sorting !! x with
  | Some k => Ok (k, x)
  | None => Raise KeyError
  end.

(** [sorted(X, key=lambda x: self._sorting[x])] *)
Definition sorted_by_rank (sorting : gmap nat nat) (X : gset nat)
  : res (list nat) :=
  kxs ← res_mapM (rank_of sorting) (elements X);
  Ok ((foldr insert_by_key [] kxs).*2).

(** [l.index(x)] *)
Fixpoint index (x : nat) (l : list nat) : res nat :=
  match l with
  | [] => Raise ValueError
  | y :: l' => if decide (y = x) then Ok 0%nat else S <$> index x l'
  end.

(** [X.symmetric_difference(Y)] *)
Definition symmetric_difference (X Y : gset nat) : gset nat :=
  (X ∖ Y) ∪ (Y ∖ X).

(** ** The matroid interface and the algebra object *)

(** What the algebra consumes from its matroid. *)
Record Matroid : Type := {
  groundset : gset nat;
  circuits : list (gset nat);
  no_broken_circuits_sets : list nat → res (list (gset nat));
}.

(** [d[k] = v] on a dict kept in scan order: an existing key keeps its
    place and takes the new value, a new key goes last. *)
Fixpoint dict_set (k : gset nat) (v : nat) (d : list (gset nat * nat))
  : list (gset nat * nat) :=
  match d with
  | [] => [(k, v)]
  | (k', v') :: d' =>
      if decide (k' = k) then (k, v) :: d' else (k', v') :: dict_set k v d'
  end.

Record OrlikSolomonAlgebra : Type := {
  _M : Matroid;
  _sorting : gmap nat nat;
  _broken_circuits : list (gset nat * nat);
  _indices : list (gset nat);
}.

(** The body of the loop [for c in self._M.circuits()]. *)
Definition add_broken_circuit (sorting : gmap nat nat)
    (d : list (gset nat * nat)) (c : gset nat) : res (list (gset nat * nat)) :=
  L ← sorted_by_rank sorting c;
  match L with
  | [] => Raise IndexError
  | i :: bc => Ok (dict_set (list_to_set bc) i d)
  end.

Definition broken_circuit_table (sorting : gmap nat nat)
    (cs : list (gset nat)) : res (list (gset nat * nat)) :=
  res_foldl (add_broken_circuit sorting) [] cs.

(** [OrlikSolomonAlgebra.__init__(self, R, M, ordering=None)] *)
Definition __init__ (M : Matroid) (ordering : option (list nat))
  : res OrlikSolomonAlgebra :=
  let ordering :=
    match ordering with
    | None => merge_sort (≤)%nat (elements (groundset M))
    | Some o => o
    end in
  let sorting := enumerate_index ordering in
  table ← broken_circuit_table sorting (circuits M);
  indices ← no_broken_circuits_sets M ordering;
  Ok {| _M := M; _sorting := sorting; _broken_circuits := table;
        _indices := indices |}.

(** ** [subset_image] *)

(** [for bc in self._broken_circuits: if bc.issubset(X): ...]: the first
    key of the table contained in [X], with its value. *)
Fixpoint scan (d : list (gset nat * nat)) (X : gset nat)
  : option (gset nat * nat) :=
  match d with
  | [] => None
  | (bc, i) :: d' => if decide (bc ⊆ X) then Some (bc, i) else scan d' X
  end.

(** [for j in Ss: if j in bc: r += coeff * rec(...); coeff *= -1] *)
Fixpoint rewrite_loop (rec : gset nat → res lc) (X bc : gset nat) (i : nat)
    (Ss : list nat) (coeff : Z) (r : lc) : res lc :=
  match Ss with
  | [] => Ok r
  | j :: Ss' =>
      r' ← (if decide (j ∈ bc)
            then x ← rec (symmetric_difference X {[i; j]});
                 Ok (lc_add r (lc_scal coeff x))
            else Ok r);
      rewrite_loop rec X bc i Ss' (coeff * -1) r'
  end.

(** [subset_image] with a bound [n] on the depth of the recursion. *)
Fixpoint subset_image_fuel (A : OrlikSolomonAlgebra) (n : nat) (X : gset nat)
  : res lc :=
  match n with
  | O => OutOfFuel
  | S n' =>
      Ss ← sorted_by_rank (_sorting A) X;
      match scan (_broken_circuits A) X with
      | Some (bc, i) =>
          if decide (i ∈ X) then Ok zero
          else rewrite_loop (subset_image_fuel A n') X bc i Ss 1 zero
      | None => Ok (monomial X)
      end
  end.

(** The sum of the ranks of the elements of [X]. *)
Definition rank_sum (sorting : gmap nat nat) (X : gset nat) : nat :=
  sum_list ((λ x, default 0%nat (sorting !! x)) <$> elements X).

(** [self.subset_image(X)]: the depth bound is one more than the sum of
    the ranks of [X]. *)
Definition subset_image (A : OrlikSolomonAlgebra) (X : gset nat) : res lc :=
  subset_image_fuel A (S (rank_sum (_sorting A) X)) X.

(** ** [algebra_generators] and [product_on_basis] *)

(** [Family(sorted(self._M.groundset()),
           lambda i: self.subset_image(frozenset([i])))], a finite family. *)
Definition algebra_generators (A : OrlikSolomonAlgebra) : res (gmap nat lc) :=
  res_foldl (λ G i, g ← subset_image A {[i]}; Ok (<[i := g]> G)) ∅
    (merge_sort (≤)%nat (elements (groundset (_M A)))).

(** [G[i]] *)
Definition family_get (G : gmap nat lc) (i : nat) : res lc :=
  match G !! i with
  | Some g => Ok g
  | None => Raise KeyError
  end.

(** [product_on_basis] with a bound [n] on the depth of the calls made
    through the product [G[i] * r]. *)
Fixpoint product_on_basis_fuel (A : OrlikSolomonAlgebra) (n : nat)
    (a b : gset nat) : res lc :=
  match n with
  | O => OutOfFuel
  | S n' =>
      if decide (a = ∅) then Ok (monomial b)
      else if decide (b = ∅) then Ok (monomial a)
      else if decide (a ## b) then
        if decide (size a = 1%nat) then
          match elements a with
          | [] => Raise IndexError
          | i :: _ =>
              let ns := b ∪ {[i]} in
              ns_sorted ← sorted_by_rank (_sorting A) ns;
              p ← index i ns_sorted;
              x ← subset_image A ns;
              Ok (lc_scal (sign p) x)
          end
        else
          let sgn := if decide (size a mod 4 < 2)%nat then 1 else -1 in
          let r : lc := {[ b := sgn ]} in
          G ← algebra_generators A;
          a_sorted ← sorted_by_rank (_sorting A) a;
          res_foldl (λ r i,
            g ← family_get G i; lc_mul (product_on_basis_fuel A n') g r)
            r a_sorted
      else Ok zero
  end.

(** [self.product_on_basis(a, b)]: the product [G[i] * r] only meets
    left factors of one element, which return without a further product. *)
Definition product_on_basis (A : OrlikSolomonAlgebra) (a b : gset nat)
  : res lc :=
  product_on_basis_fuel A 2 a b.

(** [self.degree_on_basis(m)] *)
Definition degree_on_basis (m : gset nat) : nat := size m.


(** ** Notions used to state the properties *)

(** [X] is an NBC set: no key of the table is contained in it.  This is
    the [else] branch of the scan in [subset_image]. *)
Definition is_nbc (d : list (gset nat * nat)) (X : gset nat) : Prop :=
  Forall (λ e, ¬ e.1 ⊆ X) d.

(** The rank of an element, [0] where the ordering has none. *)
Definition rank (sorting : gmap nat nat) (x : nat) : nat :=
  default 0%nat (sorting !! x).

(** The table produced by the constructor: every entry comes from a
    circuit whose rank-minimal element is the recorded value. *)
Record table_ok (sorting : gmap nat nat) (cs : list (gset nat))
    (d : list (gset nat * nat)) : Prop := {
  table_circuit : ∀ bc i, (bc, i) ∈ d → {[i]} ∪ bc ∈ cs;
  table_fresh : ∀ bc i, (bc, i) ∈ d → i ∉ bc;
  table_dom : ∀ bc i, (bc, i) ∈ d → i ∈ dom sorting ∧ bc ⊆ dom sorting;
  table_min : ∀ bc i j, (bc, i) ∈ d → j ∈ bc →
    (rank sorting i < rank sorting j)%nat;
  table_cover : ∀ c, c ∈ cs → ∃ bc i, (bc, i) ∈ d ∧ bc ⊆ c;
}.

(** Different elements have different ranks. *)
Definition sorting_inj (sorting : gmap nat nat) : Prop :=
  ∀ x y k, sorting !! x = Some k → sorting !! y = Some k → x = y.

(** Insertion of a rank into a list kept in descending order. *)
Fixpoint desc_insert (k : nat) (l : list nat) : list nat :=
  match l with
  | [] => [k]
  | h :: t => if decide (h < k)%nat then k :: h :: t else h :: desc_insert k t
  end.

(** The ranks of the elements of [X], listed in descending order. *)
Definition desc_ranks (sorting : gmap nat nat) (X : gset nat) : list nat :=
  foldr desc_insert [] (omap (λ x, sorting !! x) (elements X)).

(** The lexicographic order on lists of ranks. *)
Inductive lex_lt : list nat → list nat → Prop :=
  | lex_lt_nil y l : lex_lt [] (y :: l)
  | lex_lt_head x y l l' : (x < y)%nat → lex_lt (x :: l) (y :: l')
  | lex_lt_tail x l l' : lex_lt l l' → lex_lt (x :: l) (x :: l').

(** [X'] comes before [X] when sets are compared lexicographically with
    their elements listed in descending rank order. *)
Definition set_lex_lt (sorting : gmap nat nat) (X' X : gset nat) : Prop :=
  lex_lt (desc_ranks sorting X') (desc_ranks sorting X).

(** The binary weight of a list of ranks. *)
Definition weight (l : list nat) : nat := sum_list_with (λ k, 2 ^ k)%nat l.

(** The sum of a list of algebra elements, from the left. *)
Definition lc_sum (r : lc) (l : list lc) : lc := foldl lc_add r l.

(** The rewrite rule in the words of the specification: with [Ss] the
    ascending listing [s_1 < ... < s_t] of [X], the sum over the
    positions [k] with [s_k ∈ bc] of [(-1)^(k-1)] times the image of
    [X] with [s_k] removed and [i] inserted.  Positions count from [0]
    here, so the sign of position [k] is [sign k]. *)
Definition boundary_sum (A : OrlikSolomonAlgebra) (X bc : gset nat) (i : nat)
    (Ss : list nat) : res lc :=
  terms ← res_mapM
    (λ ks : nat * nat,
       lc_scal (sign ks.1) <$>
         subset_image A (symmetric_difference X {[i; ks.2]}))
    (filter (λ ks : nat * nat, ks.2 ∈ bc) (imap pair Ss));
  Ok (lc_sum zero terms).

(** Weak circuit elimination, the matroid axiom on the circuits: two
    different circuits sharing an element [e] contain, in their union,
    a circuit avoiding [e]. *)
Definition circuit_elimination (cs : list (gset nat)) : Prop :=
  Forall (λ c1, Forall (λ c2, c1 = c2 ∨
    set_Forall (λ e, e ∈ c2 → Exists (λ c3, c3 ⊆ (c1 ∪ c2) ∖ {[e]}) cs) c1)
    cs) cs.

(** ** [_repr_term] *)

(** [str(l)] for a list of integers. *)
Definition str_list (l : list nat) : string :=
  "[" +:+ String.concat ", " (pretty <$> l) +:+ "]".

(** [s[1:-1]] *)
Definition slice_1_m1 (s : string) : string :=
  String.substring 1 (String.length s - 2) s.

(** ["OS{{{}}}".format(str(list(m))[1:-1])].  [list(m)] enumerates the
    frozenset in its own iteration order, which Python leaves to the
    hash table; it is the parameter [frozenset_list]. *)
Definition _repr_term (frozenset_list : gset nat → list nat) (m : gset nat)
  : string :=
  "OS{" +:+ slice_1_m1 (str_list (frozenset_list m)) +:+ "}".

(** The rendering with the elements in ascending order. *)
Definition sorted_repr (m : gset nat) : string :=
  "OS{" +:+ String.concat ", " (pretty <$> merge_sort (≤)%nat (elements m))
    +:+ "}".

(** An enumeration order by hash slot: CPython stores a small set of
    small integers in a table of eight slots, the integer [x] in slot
    [x mod 8], and enumerates the slots in order. *)
Definition slot_le (x y : nat) : Prop := (x mod 8 ≤ y mod 8)%nat.

#[global] Instance slot_le_dec : RelDecision slot_le.
Proof. intros x y. unfold slot_le. apply _. Defined.

Definition slot_order (m : gset nat) : list nat :=
  merge_sort slot_le (elements m).

(** ** Concrete matroids *)

(** All sublists of a list. *)
Fixpoint sublists (l : list nat) : list (list nat) :=
  match l with
  | [] => [[]]
  | x :: l' => sublists l' ++ (cons x <$> sublists l')
  end.

(** Modelled from the spec: [Matroid.no_broken_circuits_sets] is not part
    of the sources at hand.  An NBC set is a subset of the ground set
    containing no broken circuit, and a broken circuit is a circuit
    without its rank-minimal element. *)
Definition nbc_sets_of (g : gset nat) (cs : list (gset nat))
    (ordering : list nat) : res (list (gset nat)) :=
  d ← broken_circuit_table (enumerate_index ordering) cs;
  Ok (filter (λ X, scan d X = None)
        (list_to_set <$> sublists (merge_sort (≤)%nat (elements g)))).

(** The matroid with ground set [g] and circuits [cs]. *)
Definition matroid_of (g : list nat) (cs : list (list nat)) : Matroid :=
  {| groundset := list_to_set g;
     circuits := list_to_set <$> cs;
     no_broken_circuits_sets :=
       nbc_sets_of (list_to_set g) (list_to_set <$> cs) |}.

(** A single loop. *)
Definition loop_matroid : Matroid := matroid_of [0]%nat [[0]]%nat.

(** The free matroid on two elements. *)
Definition free2 : Matroid := matroid_of [0; 1]%nat [].

(** The uniform matroid [U(3, 4)] of the class docstring. *)
Definition U34 : Matroid :=
  matroid_of [0; 1; 2; 3]%nat [[0; 1; 2; 3]]%nat.

(** Two triangles sharing the edge [4]: the cycle matroid of the complete
    graph on four vertices with an edge removed. *)
Definition two_triangles : Matroid :=
  matroid_of [0; 1; 2; 3; 4]%nat [[0; 3; 4]; [1; 2; 4]; [0; 1; 2; 3]]%nat.

(** The (key, element) pair the sort works on. *)
Definition keyed (sorting : gmap nat nat) (x : nat) : nat * nat :=
  (rank sorting x, x).

Definition lt_key (a b : nat * nat) : Prop := (a.1 < b.1)%nat.

(** The state reached by a successful constructor. *)
Record alg_ok (A : OrlikSolomonAlgebra) : Prop := {
  alg_inj : sorting_inj (_sorting A);
  alg_table : table_ok (_sorting A) (circuits (_M A)) (_broken_circuits A);
}.

(** The algebra object a constructor call leaves behind. *)
Definition algebra_of (M : Matroid) (ordering : option (list nat))
  : OrlikSolomonAlgebra :=
  match __init__ M ordering with
  | Ok A => A
  | _ => {| _M := M; _sorting := ∅; _broken_circuits := []; _indices := [] |}
  end.

(** The call returned. *)
Definition is_Ok {A} (r : res A) : bool :=
  match r with Ok _ => true | _ => false end.

(** The value a call returned, [d] if it did not return. *)
Definition from_res {A} (d : A) (r : res A) : A :=
  match r with Ok a => a | _ => d end.

#[global] Instance exn_eq_dec : EqDecision exn.
Proof. solve_decision. Defined.

#[global] Instance res_eq_dec {A} `{EqDecision A} : EqDecision (res A).
Proof. solve_decision. Defined.

(** The ordering the constructor works with. *)
Definition ordering_of (M : Matroid) (ordering : option (list nat))
  : list nat :=
  match ordering with
  | None => merge_sort (≤)%nat (elements (groundset M))
  | Some o => o
  end.

(** * Properties *)

(** ** Results *)

Lemma res_bind_Ok {A B} (m : res A) (k : A → res B) b :
  m ≫= k = Ok b ↔ ∃ a, m = Ok a ∧ k a = Ok b.
Proof.
  destruct m as [a|e|]; simpl.
  - split; [intros H; by exists a | by intros (a' & [= <-] & H)].
  - split; [done | by intros (a' & [=] & _)].
  - split; [done | by intros (a' & [=] & _)].
Qed.

Lemma res_fmap_Ok {A B} (f : A → B) (m : res A) b :
  f <$> m = Ok b ↔ ∃ a, m = Ok a ∧ b = f a.
Proof.
  destruct m as [a|e|]; simpl.
  - split; [intros [= <-]; by exists a | by intros (a' & [= <-] & ->)].
  - split; [done | by intros (a' & [=] & _)].
  - split; [done | by intros (a' & [=] & _)].
Qed.

(** ** Sorting by rank *)


Lemma rank_of_Ok sorting x :
  x ∈ dom sorting → rank_of sorting x = Ok (keyed sorting x).
Proof.
  intros [k Hk]%elem_of_dom. unfold rank_of, keyed, rank. by rewrite Hk.
Qed.

Lemma rank_of_mapM_Ok sorting l :
  Forall (λ x, x ∈ dom sorting) l →
  res_mapM (rank_of sorting) l = Ok (keyed sorting <$> l).
Proof.
  induction 1 as [|x l Hx _ IH]; [done|].
  cbn [res_mapM]. rewrite (rank_of_Ok _ _ Hx), IH. done.
Qed.

Lemma rank_of_mapM_inv sorting l kxs :
  res_mapM (rank_of sorting) l = Ok kxs →
  Forall (λ x, x ∈ dom sorting) l.
Proof.
  revert kxs. induction l as [|x l IH]; intros kxs; [by constructor|].
  simpl. intros (kx & Hkx & (ys & Hys & _)%res_bind_Ok)%res_bind_Ok.
  constructor; [|by eapply IH].
  unfold rank_of in Hkx. apply elem_of_dom.
  destruct (sorting !! x); [by eexists|done].
Qed.

Lemma insert_by_key_perm kx l : insert_by_key kx l ≡ₚ kx :: l.
Proof.
  induction l as [|ky l IH]; [done|]. simpl.
  case_decide; [done|]. rewrite IH. apply Permutation_swap.
Qed.

Lemma sort_keyed_perm l : foldr insert_by_key [] l ≡ₚ l.
Proof.
  induction l as [|kx l IH]; [done|]. simpl.
  by rewrite insert_by_key_perm, IH.
Qed.

Lemma insert_by_key_sorted kx l :
  StronglySorted lt_key l →
  Forall (λ ky, ky.1 ≠ kx.1) l →
  StronglySorted lt_key (insert_by_key kx l).
Proof.
  induction 1 as [|ky l Hl IH Hky]; intros Hne; simpl.
  { repeat constructor. }
  apply Forall_cons in Hne as [Hne1 Hne].
  case_decide as Hle.
  - assert (lt_key kx ky) by (unfold lt_key; lia).
    constructor; [by constructor|].
    constructor; [done|].
    eapply Forall_impl; [exact Hky|]. unfold lt_key in *. intros; simpl in *; lia.
  - constructor; [by apply IH|].
    rewrite insert_by_key_perm. constructor; [|done].
    unfold lt_key. lia.
Qed.

Lemma sort_keyed_sorted l :
  NoDup (l.*1) → StronglySorted lt_key (foldr insert_by_key [] l).
Proof.
  induction l as [|kx l IH]; simpl; [constructor|].
  intros [Hnotin Hnd]%NoDup_cons.
  apply insert_by_key_sorted; [by apply IH|].
  rewrite sort_keyed_perm. apply Forall_forall. intros ky Hky Heq.
  apply Hnotin. rewrite <-Heq. by apply list_elem_of_fmap_2.
Qed.

Lemma sorted_by_rank_Ok sorting X :
  X ⊆ dom sorting →
  sorted_by_rank sorting X
  = Ok ((foldr insert_by_key [] (keyed sorting <$> elements X)).*2).
Proof.
  intros HX. unfold sorted_by_rank. rewrite rank_of_mapM_Ok; [done|].
  apply Forall_forall. intros x Hx%elem_of_elements. by apply HX.
Qed.

Lemma sorted_by_rank_dom sorting X Ss :
  sorted_by_rank sorting X = Ok Ss → X ⊆ dom sorting.
Proof.
  unfold sorted_by_rank. intros (kxs & Hk & _)%res_bind_Ok.
  apply rank_of_mapM_inv in Hk. intros x Hx%elem_of_elements.
  by eapply Forall_forall in Hk.
Qed.

Lemma sorted_by_rank_perm sorting X Ss :
  sorted_by_rank sorting X = Ok Ss → Ss ≡ₚ elements X.
Proof.
  intros H. pose proof (sorted_by_rank_dom _ _ _ H) as HX.
  rewrite (sorted_by_rank_Ok _ _ HX) in H. injection H as <-.
  rewrite sort_keyed_perm, <-list_fmap_compose. by rewrite list_fmap_id.
Qed.

Lemma sorted_by_rank_elem_of sorting X Ss x :
  sorted_by_rank sorting X = Ok Ss → x ∈ Ss ↔ x ∈ X.
Proof. intros ->%sorted_by_rank_perm. apply elem_of_elements. Qed.

Lemma sorted_by_rank_NoDup sorting X Ss :
  sorted_by_rank sorting X = Ok Ss → NoDup Ss.
Proof. intros ->%sorted_by_rank_perm. apply NoDup_elements. Qed.

Lemma rank_inj sorting x y :
  sorting_inj sorting → x ∈ dom sorting → y ∈ dom sorting →
  rank sorting x = rank sorting y → x = y.
Proof.
  intros Hinj [k Hk]%elem_of_dom [k' Hk']%elem_of_dom. unfold rank.
  rewrite Hk, Hk'. simpl. intros ->. by eapply Hinj.
Qed.

Lemma sorted_by_rank_sorted sorting X Ss :
  sorting_inj sorting →
  sorted_by_rank sorting X = Ok Ss →
  StronglySorted (λ x y, rank sorting x < rank sorting y)%nat Ss.
Proof.
  intros Hinj H. pose proof (sorted_by_rank_dom _ _ _ H) as HX.
  rewrite (sorted_by_rank_Ok _ _ HX) in H. injection H as <-.
  assert (NoDup ((keyed sorting <$> elements X).*1)) as Hnd.
  { rewrite <-list_fmap_compose. apply NoDup_fmap_2_strong; [|apply NoDup_elements].
    intros x y Hx%elem_of_elements Hy%elem_of_elements Heq. simpl in Heq.
    eapply rank_inj; eauto. }
  apply sort_keyed_sorted in Hnd.
  assert (Forall (λ p, p.1 = rank sorting p.2)
            (foldr insert_by_key [] (keyed sorting <$> elements X))) as Hall.
  { rewrite sort_keyed_perm. apply Forall_fmap, Forall_forall. by intros. }
  induction Hnd as [|p l Hl IH Hp]; simpl; [constructor|].
  apply Forall_cons in Hall as [Hp1 Hall].
  constructor; [by apply IH|].
  apply Forall_fmap. rewrite Forall_forall in Hp, Hall |- *.
  intros q Hq. specialize (Hp q Hq). specialize (Hall q Hq).
  unfold lt_key in Hp. simpl. lia.
Qed.

(** ** The ordering index *)

Lemma enumerate_from_spec i o d :
  (∀ x k, d !! x = Some k → (k < i)%nat) → sorting_inj d →
  sorting_inj (enumerate_from i o d)
  ∧ dom (enumerate_from i o d) = list_to_set o ∪ dom d.
Proof.
  revert i d. induction o as [|x o IH]; intros i d Hlt Hinj; simpl.
  { split; [done|set_solver]. }
  destruct (IH (S i) (<[x:=i]> d)) as [IH1 IH2].
  - intros y k. rewrite lookup_insert. case_decide.
    + intros [= <-]. lia.
    + intros ?%Hlt. lia.
  - intros y z k. rewrite !lookup_insert.
    repeat case_decide; subst; try done.
    + intros [= <-] ?%Hlt. lia.
    + intros ?%Hlt [= <-]. lia.
    + apply Hinj.
  - split; [done|]. rewrite IH2, dom_insert_L. set_solver.
Qed.

Lemma enumerate_index_inj o : sorting_inj (enumerate_index o).
Proof. by apply enumerate_from_spec. Qed.

Lemma enumerate_index_dom o : dom (enumerate_index o) = list_to_set o.
Proof.
  unfold enumerate_index.
  destruct (enumerate_from_spec 0 o ∅) as [_ ->]; [done..|].
  rewrite dom_empty_L. set_solver.
Qed.

(** ** The table of broken circuits *)

Lemma elem_of_dict_set k v d e :
  e ∈ dict_set k v d → e = (k, v) ∨ e ∈ d.
Proof.
  induction d as [|[k' v'] d IH]; simpl.
  { intros ->%list_elem_of_singleton. by left. }
  case_decide.
  - intros [->|?]%elem_of_cons; [by left|right; by right].
  - intros [->|[->|?]%IH]%elem_of_cons; [right; by left|by left|right; by right].
Qed.

Lemma dict_set_new k v d : (k, v) ∈ dict_set k v d.
Proof.
  induction d as [|[k' v'] d IH]; simpl; [by left|].
  case_decide; [by left|by right].
Qed.

Lemma dict_set_keys k v d k' v' :
  (k', v') ∈ d → ∃ v'', (k', v'') ∈ dict_set k v d.
Proof.
  induction d as [|[k0 v0] d IH]; simpl; [by intros ?%elem_of_nil|].
  intros [[= <- <-]|Hin]%elem_of_cons.
  - case_decide; subst; eexists; by left.
  - case_decide.
    + exists v'. by right.
    + destruct (IH Hin) as [v'' ?]. exists v''. by right.
Qed.

Lemma add_broken_circuit_inv sorting d c d' :
  sorting_inj sorting →
  add_broken_circuit sorting d c = Ok d' →
  ∃ i bc, d' = dict_set bc i d ∧ c = ({[i]} ∪ bc) ∧ (i ∉ bc)
    ∧ c ⊆ dom sorting
    ∧ (∀ j, j ∈ bc → (rank sorting i < rank sorting j)%nat).
Proof.
  intros Hinj. unfold add_broken_circuit.
  intros (L & HL & Hd)%res_bind_Ok.
  destruct L as [|i bcl]; [done|]. injection Hd as <-.
  exists i, (list_to_set bcl).
  pose proof (sorted_by_rank_NoDup _ _ _ HL) as [Hi _]%NoDup_cons.
  pose proof (sorted_by_rank_sorted _ _ _ Hinj HL) as Hs.
  apply StronglySorted_inv in Hs as [_ Hs].
  split_and!; [done| | |by eapply sorted_by_rank_dom|].
  - apply set_eq. intros x.
    rewrite <-(sorted_by_rank_elem_of _ _ _ x HL). set_solver.
  - by rewrite elem_of_list_to_set.
  - intros j Hj%elem_of_list_to_set. by eapply Forall_forall in Hs.
Qed.

Lemma add_broken_circuit_ok sorting cs d c d' :
  sorting_inj sorting →
  table_ok sorting cs d →
  add_broken_circuit sorting d c = Ok d' →
  table_ok sorting (cs ++ [c]) d'.
Proof.
  intros Hinj [H1 H2 H3 H4 H5]
    (i & bc & -> & -> & Hi & Hdom & Hmin)%add_broken_circuit_inv; [|done].
  split.
  - intros bc' i' [[= -> ->]|Hin]%elem_of_dict_set; set_solver.
  - intros bc' i' [[= -> ->]|Hin]%elem_of_dict_set; [done|by eapply H2].
  - intros bc' i' [[= -> ->]|Hin]%elem_of_dict_set; [set_solver|by eapply H3].
  - intros bc' i' j [[= -> ->]|Hin]%elem_of_dict_set; [by apply Hmin|by eapply H4].
  - intros c' [Hc' | ->%list_elem_of_singleton]%elem_of_app.
    + destruct (H5 c' Hc') as (bc' & i' & Hin & Hsub).
      destruct (dict_set_keys bc i _ _ _ Hin) as [v'' ?]. by exists bc', v''.
    + exists bc, i. split; [apply dict_set_new|set_solver].
Qed.

Lemma broken_circuit_table_ok sorting cs d :
  sorting_inj sorting →
  broken_circuit_table sorting cs = Ok d →
  table_ok sorting cs d.
Proof.
  intros Hinj. unfold broken_circuit_table.
  assert (table_ok sorting [] []) as H0.
  { split; try (by intros ?? ?%elem_of_nil); try (by intros ??? ?%elem_of_nil).
    by intros ? ?%elem_of_nil. }
  change cs with ([] ++ cs) at 2.
  generalize dependent (@nil (gset nat * nat)).
  generalize (@nil (gset nat)).
  induction cs as [|c cs IH]; intros pre d0 H0; simpl.
  { intros [= <-]. by rewrite app_nil_r. }
  intros (d1 & Hd1 & Hd)%res_bind_Ok.
  replace (pre ++ c :: cs) with ((pre ++ [c]) ++ cs)
    by (by rewrite <-app_assoc).
  eapply IH; [|done].
  by eapply add_broken_circuit_ok.
Qed.

Lemma broken_circuit_table_dom sorting cs d c :
  broken_circuit_table sorting cs = Ok d → c ∈ cs →
  c ≠ ∅ ∧ c ⊆ dom sorting.
Proof.
  unfold broken_circuit_table. generalize (@nil (gset nat * nat)).
  induction cs as [|c' cs IH]; intros d0; simpl; [by intros _ ?%elem_of_nil|].
  intros (d1 & Hd1 & Hd)%res_bind_Ok [->|Hin]%elem_of_cons; [|by eapply IH].
  unfold add_broken_circuit in Hd1.
  apply res_bind_Ok in Hd1 as (L & HL & HL').
  split; [|by eapply sorted_by_rank_dom].
  intros ->. apply sorted_by_rank_perm in HL.
  rewrite elements_empty in HL. apply Permutation_nil_r in HL. by subst.
Qed.

Lemma init_inv M ordering A :
  __init__ M ordering = Ok A →
  _M A = M ∧ alg_ok A
  ∧ broken_circuit_table (_sorting A) (circuits M) = Ok (_broken_circuits A).
Proof.
  unfold __init__.
  intros (d & Hd & (idx & _ & [= <-])%res_bind_Ok)%res_bind_Ok. simpl.
  split_and!; [done| |done].
  split; simpl; [apply enumerate_index_inj|].
  apply broken_circuit_table_ok; [apply enumerate_index_inj|done].
Qed.

(** ** The scan of the table *)

Lemma scan_Some d X bc i :
  scan d X = Some (bc, i) → (bc, i) ∈ d ∧ bc ⊆ X.
Proof.
  induction d as [|[bc' i'] d IH]; simpl; [done|].
  case_decide.
  - intros [= <- <-]. split; [by left|done].
  - intros [??]%IH. split; [by right|done].
Qed.

Lemma scan_None d X : scan d X = None ↔ is_nbc d X.
Proof.
  unfold is_nbc. induction d as [|[bc i] d IH]; simpl.
  { split; [constructor|done]. }
  rewrite Forall_cons. simpl. case_decide; [|tauto].
  split; [done|tauto].
Qed.

Lemma scan_is_Some d X bc i :
  (bc, i) ∈ d → bc ⊆ X → ∃ bc' i', scan d X = Some (bc', i').
Proof.
  intros Hin Hsub.
  destruct (scan d X) as [[bc' i']|] eqn:Hs; [by eauto|].
  apply scan_None in Hs. unfold is_nbc in Hs.
  eapply Forall_forall in Hs; [|done]. done.
Qed.

(** ** Linear combinations *)

Lemma lc_add_zero_r (x : lc) : lc_add x zero = x.
Proof.
  apply map_eq. intros m. unfold lc_add, zero.
  rewrite lookup_union_with, lookup_empty. by destruct (x !! m).
Qed.

Lemma lc_add_zero_l (x : lc) : lc_add zero x = x.
Proof.
  apply map_eq. intros m. unfold lc_add, zero.
  rewrite lookup_union_with, lookup_empty. by destruct (x !! m).
Qed.

Lemma lc_scal_zero c : lc_scal c zero = zero.
Proof. unfold lc_scal, zero. case_decide; [done|apply fmap_empty]. Qed.

Lemma dom_lc_add (x y : lc) : dom (lc_add x y) ⊆ dom x ∪ dom y.
Proof.
  intros m. rewrite elem_of_union, !elem_of_dom. unfold lc_add.
  rewrite lookup_union_with.
  destruct (x !! m), (y !! m); simpl; intros [? ?]; eauto; done.
Qed.

Lemma dom_lc_scal c (x : lc) : dom (lc_scal c x) ⊆ dom x.
Proof.
  unfold lc_scal. case_decide; [set_solver|]. by rewrite dom_fmap_L.
Qed.

Lemma dom_monomial m : dom (monomial m) = {[m]}.
Proof. unfold monomial. apply dom_singleton_L. Qed.

Lemma sign_S k : sign (S k) = sign k * -1.
Proof.
  unfold sign. rewrite Nat2Z.inj_succ, Z.pow_succ_r; lia.
Qed.

(** ** The recursion budget *)

Lemma rewrite_loop_mono rec1 rec2 X bc i Ss c r :
  (∀ Y, rec1 Y ≠ OutOfFuel → rec2 Y = rec1 Y) →
  rewrite_loop rec1 X bc i Ss c r ≠ OutOfFuel →
  rewrite_loop rec2 X bc i Ss c r = rewrite_loop rec1 X bc i Ss c r.
Proof.
  intros Hrec. revert c r. induction Ss as [|j Ss IH]; intros c r; [done|].
  simpl. case_decide; simpl; [|apply IH].
  destruct (rec1 (symmetric_difference X {[i; j]})) as [x|e|] eqn:H1; simpl.
  - rewrite Hrec, H1; [|by rewrite H1]. simpl. apply IH.
  - rewrite Hrec, H1; [|by rewrite H1]. done.
  - done.
Qed.

Lemma rewrite_loop_ext rec1 rec2 X bc i Ss c r :
  (∀ j, j ∈ Ss → j ∈ bc →
     rec2 (symmetric_difference X {[i; j]})
     = rec1 (symmetric_difference X {[i; j]})) →
  rewrite_loop rec2 X bc i Ss c r = rewrite_loop rec1 X bc i Ss c r.
Proof.
  revert c r. induction Ss as [|j Ss IH]; intros c r Hrec; [done|].
  simpl. case_decide.
  - rewrite Hrec; [|by left|done].
    destruct (rec1 _); simpl; [|done..].
    apply IH. intros j' ??. apply Hrec; [by right|done].
  - simpl. apply IH. intros j' ??. apply Hrec; [by right|done].
Qed.

Lemma rewrite_loop_total rec X bc i Ss c r :
  (∀ j, j ∈ Ss → j ∈ bc →
     ∃ v, rec (symmetric_difference X {[i; j]}) = Ok v) →
  ∃ v, rewrite_loop rec X bc i Ss c r = Ok v.
Proof.
  revert c r. induction Ss as [|j Ss IH]; intros c r Hrec; simpl; [by eexists|].
  case_decide; simpl.
  - destruct (Hrec j) as [v ->]; [by left|done|]. simpl.
    apply IH. intros j' ??. apply Hrec; [by right|done].
  - apply IH. intros j' ??. apply Hrec; [by right|done].
Qed.

Lemma subset_image_fuel_mono A n m X :
  (n ≤ m)%nat →
  subset_image_fuel A n X ≠ OutOfFuel →
  subset_image_fuel A m X = subset_image_fuel A n X.
Proof.
  revert m X. induction n as [|n IH]; intros m X Hle; [done|].
  destruct m as [|m]; [lia|]. simpl.
  destruct (sorted_by_rank (_sorting A) X) as [Ss|e|]; simpl; [|done..].
  destruct (scan (_broken_circuits A) X) as [[bc i]|]; [|done].
  case_decide; [done|].
  apply rewrite_loop_mono. intros Y. apply IH. lia.
Qed.

(** ** The sum of ranks drops along the recursion *)

Lemma rank_sum_insert sorting x Y :
  x ∉ Y →
  rank_sum sorting ({[x]} ∪ Y) = (rank sorting x + rank_sum sorting Y)%nat.
Proof.
  intros Hx. unfold rank_sum. by rewrite elements_union_singleton.
Qed.

Lemma symmetric_difference_swap X i j :
  j ∈ X → i ∉ X →
  symmetric_difference X {[i; j]} = {[i]} ∪ X ∖ {[j]}.
Proof. unfold symmetric_difference. set_solver. Qed.

Lemma rank_sum_swap sorting X i j :
  j ∈ X → i ∉ X → (rank sorting i < rank sorting j)%nat →
  (rank_sum sorting (symmetric_difference X {[i; j]}) < rank_sum sorting X)%nat.
Proof.
  intros Hj Hi Hlt. rewrite symmetric_difference_swap by done.
  rewrite (union_difference_singleton_L j X) at 2 by done.
  rewrite !rank_sum_insert by set_solver. lia.
Qed.

Lemma size_swap X i j :
  j ∈ X → i ∉ X → size (symmetric_difference X {[i; j]}) = size X.
Proof.
  intros Hj Hi. rewrite symmetric_difference_swap by done.
  rewrite (union_difference_singleton_L j X Hj) at 2.
  rewrite (size_union {[i]}), (size_union {[j]}) by set_solver.
  by rewrite !size_singleton.
Qed.

(** ** [subset_image] returns *)

Lemma subset_image_fuel_total A n X :
  alg_ok A → X ⊆ dom (_sorting A) →
  (rank_sum (_sorting A) X < n)%nat →
  ∃ r, subset_image_fuel A n X = Ok r.
Proof.
  intros [Hinj Htab]. revert X. induction n as [|n IH]; intros X HX Hn; [lia|].
  simpl. rewrite (sorted_by_rank_Ok _ _ HX). simpl.
  destruct (scan (_broken_circuits A) X) as [[bc i]|] eqn:Hs; [|by eexists].
  case_decide as Hi; [by eexists|].
  apply scan_Some in Hs as [Hin Hsub].
  apply rewrite_loop_total. intros j _ Hj.
  apply IH.
  - rewrite symmetric_difference_swap by set_solver.
    destruct (table_dom _ _ _ Htab _ _ Hin). set_solver.
  - assert (rank_sum (_sorting A) (symmetric_difference X {[i; j]})
              < rank_sum (_sorting A) X)%nat; [|lia].
    apply rank_sum_swap; [set_solver|done|by eapply table_min].
Qed.

Lemma subset_image_total A X :
  alg_ok A → X ⊆ dom (_sorting A) → ∃ r, subset_image A X = Ok r.
Proof. intros. apply subset_image_fuel_total; [done..|lia]. Qed.

Lemma subset_image_fuel_eq A n X :
  alg_ok A → X ⊆ dom (_sorting A) →
  (rank_sum (_sorting A) X < n)%nat →
  subset_image_fuel A n X = subset_image A X.
Proof.
  intros HA HX Hn. unfold subset_image.
  apply subset_image_fuel_mono; [lia|].
  destruct (subset_image_total A X HA HX) as [r Hr].
  unfold subset_image in Hr. by rewrite Hr.
Qed.

(** The defining equation of [subset_image], free of the budget. *)
Lemma subset_image_unfold A X :
  alg_ok A → X ⊆ dom (_sorting A) →
  subset_image A X =
    Ss ← sorted_by_rank (_sorting A) X;
    match scan (_broken_circuits A) X with
    | Some (bc, i) =>
        if decide (i ∈ X) then Ok zero
        else rewrite_loop (subset_image A) X bc i Ss 1 zero
    | None => Ok (monomial X)
    end.
Proof.
  intros HA HX. unfold subset_image at 1. simpl.
  destruct (sorted_by_rank (_sorting A) X) as [Ss|e|]; simpl; [|done..].
  destruct (scan (_broken_circuits A) X) as [[bc i]|] eqn:Hs; [|done].
  case_decide as Hi; [done|].
  apply scan_Some in Hs as [Hin Hsub].
  symmetry. apply rewrite_loop_ext. intros j _ Hj.
  pose proof HA as [Hinj Htab].
  symmetry. apply subset_image_fuel_eq; [done| |].
  - rewrite symmetric_difference_swap by set_solver.
    destruct (table_dom _ _ _ Htab _ _ Hin). set_solver.
  - apply rank_sum_swap; [set_solver|done|by eapply table_min].
Qed.

(** ** The rewrite loop as a signed sum *)

Lemma rewrite_loop_sum A X bc i Ss k0 r0 :
  rewrite_loop (subset_image A) X bc i Ss (sign k0) r0 =
    terms ← res_mapM
      (λ ks : nat * nat,
         lc_scal (sign ks.1) <$>
           subset_image A (symmetric_difference X {[i; ks.2]}))
      (filter (λ ks : nat * nat, ks.2 ∈ bc) (imap (λ k s, ((k0 + k)%nat, s)) Ss));
    Ok (lc_sum r0 terms).
Proof.
  revert k0 r0. induction Ss as [|j Ss IH]; intros k0 r0; [done|].
  cbn [rewrite_loop imap]. rewrite <-sign_S.
  rewrite (imap_ext _ (λ k s, ((S k0 + k)%nat, s))) by (intros; simpl; f_equal; lia).
  case_decide as Hj.
  - rewrite filter_cons_True by done. cbn [res_mapM fst snd].
    rewrite Nat.add_0_r.
    destruct (subset_image A _) as [x|e|]; simpl; [|done..].
    rewrite IH. by destruct (res_mapM _ _).
  - rewrite filter_cons_False by done. simpl. apply IH.
Qed.

Lemma rewrite_loop_zero rec X bc i Ss c :
  (∀ j, j ∈ Ss → j ∈ bc → rec (symmetric_difference X {[i; j]}) = Ok zero) →
  rewrite_loop rec X bc i Ss c zero = Ok zero.
Proof.
  revert c. induction Ss as [|j Ss IH]; intros c Hrec; [done|]. simpl.
  case_decide.
  - rewrite Hrec; [|by left|done]. simpl.
    rewrite lc_scal_zero, lc_add_zero_r.
    apply IH. intros j' ??. apply Hrec; [by right|done].
  - simpl. apply IH. intros j' ??. apply Hrec; [by right|done].
Qed.

Lemma rewrite_loop_dom rec X bc i Ss c r v (P : gset nat → Prop) :
  (∀ j x, j ∈ Ss → j ∈ bc → rec (symmetric_difference X {[i; j]}) = Ok x →
     set_Forall P (dom x)) →
  set_Forall P (dom r) →
  rewrite_loop rec X bc i Ss c r = Ok v →
  set_Forall P (dom v).
Proof.
  revert c r. induction Ss as [|j Ss IH]; intros c r Hrec Hr; simpl.
  { by intros [= <-]. }
  intros (r' & Hr' & Hv)%res_bind_Ok.
  eapply IH; [| |exact Hv].
  { intros j' x ??. apply Hrec; [by right|done]. }
  case_decide; [|by injection Hr' as <-].
  apply res_bind_Ok in Hr' as (x & Hx & [= <-]).
  intros m [Hm|Hm%dom_lc_scal]%dom_lc_add%elem_of_union; [by apply Hr|].
  eapply Hrec; [by left|done..].
Qed.

Lemma circuit_elimination_inv cs c1 c2 e :
  circuit_elimination cs → c1 ∈ cs → c2 ∈ cs → c1 ≠ c2 → e ∈ c1 → e ∈ c2 →
  ∃ c3, c3 ∈ cs ∧ c3 ⊆ (c1 ∪ c2) ∖ {[e]}.
Proof.
  unfold circuit_elimination. rewrite Forall_forall. intros H H1 H2 Hne He1 He2.
  specialize (H c1 H1). rewrite Forall_forall in H.
  destruct (H c2 H2) as [?|H']; [done|].
  specialize (H' e He1 He2). by apply Exists_exists in H'.
Qed.

Lemma index_Ok x (l : list nat) :
  x ∈ l →
  ∃ p, index x l = Ok p ∧ l !! p = Some x
    ∧ (∀ q, (q < p)%nat → l !! q ≠ Some x).
Proof.
  induction l as [|y l IH]; [by intros ?%elem_of_nil|].
  simpl. case_decide as Hy.
  - intros _. exists 0%nat. subst. split_and!; [done..|lia].
  - intros [->|Hin]%elem_of_cons; [done|].
    destruct (IH Hin) as (p & -> & Hp & Hfirst). exists (S p).
    split_and!; [done..|].
    intros [|q] Hq; simpl; [congruence|]. apply Hfirst. lia.
Qed.

Lemma dependent_zero A n X :
  alg_ok A → circuit_elimination (circuits (_M A)) →
  X ⊆ dom (_sorting A) → (rank_sum (_sorting A) X < n)%nat →
  (∃ c, c ∈ circuits (_M A) ∧ c ⊆ X) →
  subset_image_fuel A n X = Ok zero.
Proof.
  intros [Hinj Htab] Helim. revert X.
  induction n as [|n IH]; intros X HX Hn (c & Hc & HcX); [lia|].
  simpl. rewrite (sorted_by_rank_Ok _ _ HX). simpl.
  destruct (table_cover _ _ _ Htab c Hc) as (bc0 & i0 & Hin0 & Hsub0).
  destruct (scan_is_Some _ X _ _ Hin0) as (bc & i & Hs); [set_solver|].
  rewrite Hs. apply scan_Some in Hs as [Hin Hsub].
  case_decide as Hi; [done|].
  apply rewrite_loop_zero. intros j _ Hj.
  assert (j ∈ X) as HjX by set_solver.
  destruct (table_dom _ _ _ Htab _ _ Hin) as [Hidom _].
  apply IH.
  - rewrite symmetric_difference_swap by done. set_solver.
  - assert (rank_sum (_sorting A) (symmetric_difference X {[i; j]})
              < rank_sum (_sorting A) X)%nat; [|lia].
    apply rank_sum_swap; [done..|by eapply table_min].
  - rewrite symmetric_difference_swap by done.
    destruct (decide (j ∈ c)) as [Hjc|Hjc].
    + pose proof (table_circuit _ _ _ Htab _ _ Hin) as Hc0.
      destruct (circuit_elimination_inv _ c ({[i]} ∪ bc) j Helim)
        as (c3 & Hc3 & Hsub3); [done..|set_solver|done|set_solver|].
      exists c3. split; [done|]. set_solver.
    + exists c. split; [done|]. set_solver.
Qed.

(** * The claims *)

Local Close Scope Z_scope.

(** Decide a closed proposition by evaluation. *)
Ltac by_compute := apply (bool_decide_unpack _); vm_compute; exact I.

(** A constructor call that returns leaves [algebra_of] behind. *)
Lemma algebra_of_init M ordering :
  is_Ok (__init__ M ordering) = true →
  __init__ M ordering = Ok (algebra_of M ordering).
Proof. unfold algebra_of. by destruct (__init__ M ordering). Qed.

Ltac init_compute := apply algebra_of_init; vm_compute; reflexivity.

(** A call that returns returns [from_res]. *)
Lemma is_Ok_from_res {A} (d : A) (m : res A) :
  is_Ok m = true → m = Ok (from_res d m).
Proof. by destruct m. Qed.

(** ** Terminal case of [subset_image] *)

(** C1 (as amended).  For every set [X] of elements known to the
    ordering that is an NBC set, that is, no key of the table of broken
    circuits is contained in [X], [subset_image X] returns the basis
    element indexed by [X] with coefficient 1. *)
Theorem subset_image_nbc (A : OrlikSolomonAlgebra) (X : gset nat) :
  X ⊆ dom (_sorting A) →
  is_nbc (_broken_circuits A) X →
  subset_image A X = Ok (monomial X).
Proof.
  intros HX Hnbc%scan_None. unfold subset_image. simpl.
  by rewrite (sorted_by_rank_Ok _ _ HX), Hnbc.
Qed.

Lemma subset_image_nbc_witness :
  ({[0; 2; 3]} : gset nat) ⊆ dom (_sorting (algebra_of two_triangles None))
  ∧ subset_image (algebra_of two_triangles None) {[0; 2; 3]}
    = Ok (monomial {[0; 2; 3]}).
Proof.
  assert (({[0; 2; 3]} : gset nat)
            ⊆ dom (_sorting (algebra_of two_triangles None))) as H
    by (by_compute).
  split; [exact H|].
  apply (subset_image_nbc (algebra_of two_triangles None) {[0; 2; 3]} H).
  by_compute.
Defined.

(** The empty set is an NBC set exactly when no key of the table is
    empty, that is, when no circuit is a loop. *)
Lemma is_nbc_empty d : is_nbc d ∅ ↔ Forall (λ e, e.1 ≠ ∅) d.
Proof.
  unfold is_nbc. apply Forall_iff. intros [bc i]. simpl.
  split; [intros H ->; by apply H|]. intros H Hsub. apply H. set_solver.
Qed.

(** C1, as stated, fails on the empty set: the matroid with a single
    loop records the empty broken circuit, the scan finds it in the empty
    set and the rewrite loop sums nothing. *)
Lemma subset_image_empty_loop :
  ∃ A, __init__ loop_matroid None = Ok A
    ∧ subset_image A ∅ = Ok zero
    ∧ subset_image A ∅ ≠ Ok (monomial ∅).
Proof.
  exists (algebra_of loop_matroid None). split; [init_compute|].
  assert (subset_image (algebra_of loop_matroid None) ∅ = Ok zero) as H
    by (by_compute).
  split; [exact H|]. rewrite H. intros [= Heq].
Qed.

(** ** The rewrite branch of [subset_image] *)

(** C2.  Let the scan of the table find the broken circuit [bc] in [X],
    with recorded element [i] not in [X].  Then [subset_image X] returns,
    and it is the sum, over the positions [k] of the ascending listing
    [Ss] of [X] whose element [s_k] lies in [bc], of [(-1)^k] (positions
    from 0) times [subset_image] of [X] with [s_k] removed and [i]
    inserted. *)
Theorem subset_image_rewrite (M : Matroid) (ordering : option (list nat))
    (A : OrlikSolomonAlgebra) (X bc : gset nat) (i : nat) :
  __init__ M ordering = Ok A →
  X ⊆ dom (_sorting A) →
  scan (_broken_circuits A) X = Some (bc, i) →
  i ∉ X →
  ∃ Ss r,
    sorted_by_rank (_sorting A) X = Ok Ss
    ∧ Ss ≡ₚ elements X
    ∧ StronglySorted (λ x y, rank (_sorting A) x < rank (_sorting A) y) Ss
    ∧ subset_image A X = boundary_sum A X bc i Ss
    ∧ subset_image A X = Ok r.
Proof.
  intros (_ & HA & _)%init_inv HX Hs Hi.
  destruct (subset_image_total A X HA HX) as [r Hr].
  pose proof (sorted_by_rank_Ok _ _ HX) as HSs.
  eexists _, r. split; [exact HSs|].
  split; [by eapply sorted_by_rank_perm|].
  split; [eapply sorted_by_rank_sorted; [apply HA|done]|].
  split; [|done].
  rewrite (subset_image_unfold A X HA HX), HSs. simpl. rewrite Hs.
  rewrite decide_False by done.
  change 1%Z with (sign 0). apply rewrite_loop_sum.
Qed.

Lemma subset_image_rewrite_witness :
  ∃ Ss r,
    sorted_by_rank (_sorting (algebra_of two_triangles None)) {[2; 3; 4]}
      = Ok Ss
    ∧ Ss ≡ₚ elements ({[2; 3; 4]} : gset nat)
    ∧ StronglySorted
        (λ x y, rank (_sorting (algebra_of two_triangles None)) x
                < rank (_sorting (algebra_of two_triangles None)) y) Ss
    ∧ subset_image (algebra_of two_triangles None) {[2; 3; 4]}
      = boundary_sum (algebra_of two_triangles None) {[2; 3; 4]}
          {[3; 4]} 0 Ss
    ∧ subset_image (algebra_of two_triangles None) {[2; 3; 4]} = Ok r.
Proof.
  apply (subset_image_rewrite two_triangles None).
  - init_compute.
  - by_compute.
  - by_compute.
  - by_compute.
Defined.

(** ** Dependent sets *)

(** C4.  For the circuits of a matroid (weak circuit elimination holds):
    when [X] contains a key [bc] of the table together with its recorded
    element [i], [subset_image X] is zero; and [subset_image c] is zero
    for every circuit [c]. *)
Theorem subset_image_dependent (M : Matroid) (ordering : option (list nat))
    (A : OrlikSolomonAlgebra) (X bc c : gset nat) (i : nat) :
  __init__ M ordering = Ok A →
  circuit_elimination (circuits M) →
  X ⊆ dom (_sorting A) →
  (bc, i) ∈ _broken_circuits A → bc ⊆ X → i ∈ X →
  c ∈ circuits M →
  subset_image A X = Ok zero ∧ subset_image A c = Ok zero.
Proof.
  intros Hinit Helim HX Hin Hsub Hi Hc.
  apply init_inv in Hinit as (HM & HA & Htab). subst M.
  split.
  - apply dependent_zero; [done..|lia|].
    exists ({[i]} ∪ bc). split; [|set_solver].
    eapply table_circuit; [apply HA|done].
  - apply dependent_zero; [done..| |lia|by exists c].
    by eapply broken_circuit_table_dom.
Qed.

Lemma subset_image_dependent_witness :
  subset_image (algebra_of two_triangles None) {[0; 1; 3; 4]} = Ok zero
  ∧ subset_image (algebra_of two_triangles None) {[1; 2; 4]} = Ok zero.
Proof.
  apply (subset_image_dependent two_triangles None
           (algebra_of two_triangles None)
           {[0; 1; 3; 4]} {[3; 4]} {[1; 2; 4]} 0).
  - init_compute.
  - by_compute.
  - by_compute.
  - by_compute.
  - by_compute.
  - by_compute.
  - by_compute.
Defined.

(** ** Degree *)

Lemma subset_image_fuel_degree A n X r :
  subset_image_fuel A n X = Ok r →
  set_Forall (λ m, size m = size X) (dom r).
Proof.
  revert X r. induction n as [|n IH]; intros X r; [done|]. simpl.
  intros (Ss & HSs & Hr)%res_bind_Ok.
  destruct (scan (_broken_circuits A) X) as [[bc i]|] eqn:Hs.
  - apply scan_Some in Hs as [_ Hsub]. case_decide as Hi.
    + injection Hr as <-. unfold zero. rewrite dom_empty_L. by intros ? ?%elem_of_empty.
    + eapply rewrite_loop_dom; [| |exact Hr].
      * intros j x _ Hj Hx m Hm. rewrite (IH _ _ Hx m Hm).
        apply size_swap; [set_solver|done].
      * unfold zero. rewrite dom_empty_L. by intros ? ?%elem_of_empty.
  - injection Hr as <-. rewrite dom_monomial. by intros m ->%elem_of_singleton.
Qed.

(** C10.  Whenever [subset_image X] returns, every basis index of the
    result has as many elements as [X]. *)
Theorem subset_image_degree (A : OrlikSolomonAlgebra) (X : gset nat)
    (r : lc) (m : gset nat) :
  subset_image A X = Ok r →
  m ∈ dom r →
  degree_on_basis m = size X.
Proof. intros Hr Hm. by eapply subset_image_fuel_degree. Qed.

Lemma subset_image_degree_witness :
  ∃ r, subset_image (algebra_of two_triangles None) {[2; 3; 4]} = Ok r
    ∧ degree_on_basis {[0; 1; 4]} = size ({[2; 3; 4]} : gset nat).
Proof.
  assert (subset_image (algebra_of two_triangles None) {[2; 3; 4]}
          = Ok (from_res zero
                  (subset_image (algebra_of two_triangles None) {[2; 3; 4]})))
    as Hy by (apply is_Ok_from_res; vm_compute; reflexivity).
  eexists. split; [exact Hy|].
  apply (subset_image_degree (algebra_of two_triangles None) {[2; 3; 4]}
           _ {[0; 1; 4]} Hy).
  by_compute.
Defined.

(** ** [product_on_basis] *)

(** C6.  When [a] and [b] are nonempty and share an element,
    [product_on_basis a b] is zero; in particular the product of a
    nonempty [a] with itself is zero. *)
Theorem product_on_basis_overlap (A : OrlikSolomonAlgebra) (a b : gset nat) :
  a ≠ ∅ → b ≠ ∅ → a ∩ b ≠ ∅ →
  product_on_basis A a b = Ok zero ∧ product_on_basis A a a = Ok zero.
Proof.
  intros Ha Hb Hab. unfold product_on_basis. simpl. split.
  - rewrite !decide_False by done.
    by rewrite (decide_False (P := a ## b))
      by (by rewrite disjoint_intersection_L).
  - rewrite !decide_False by done.
    rewrite (decide_False (P := a ## a)); [done|].
    rewrite disjoint_intersection_L. by rewrite intersection_idemp_L.
Qed.

Lemma product_on_basis_overlap_witness :
  product_on_basis (algebra_of two_triangles None) {[0; 1]} {[1; 3]}
    = Ok zero
  ∧ product_on_basis (algebra_of two_triangles None) {[0; 1]} {[0; 1]}
    = Ok zero.
Proof.
  apply (product_on_basis_overlap (algebra_of two_triangles None)).
  - by_compute.
  - by_compute.
  - by_compute.
Defined.

(** C7.  For [a = {x}] and a nonempty [b] without [x],
    [product_on_basis a b] is [(-1)^p] times [subset_image (b ∪ {x})],
    where [p] is the position, from 0, of [x] in the ascending listing
    of [b ∪ {x}]. *)
Theorem product_on_basis_singleton (M : Matroid) (ordering : option (list nat))
    (A : OrlikSolomonAlgebra) (x : nat) (b : gset nat) :
  __init__ M ordering = Ok A →
  b ≠ ∅ → x ∉ b → b ∪ {[x]} ⊆ dom (_sorting A) →
  ∃ Ss p y,
    sorted_by_rank (_sorting A) (b ∪ {[x]}) = Ok Ss
    ∧ StronglySorted (λ u v, rank (_sorting A) u < rank (_sorting A) v) Ss
    ∧ Ss !! p = Some x
    ∧ subset_image A (b ∪ {[x]}) = Ok y
    ∧ product_on_basis A {[x]} b = Ok (lc_scal (sign p) y).
Proof.
  intros (_ & HA & _)%init_inv Hb Hx Hdom.
  pose proof (sorted_by_rank_Ok _ _ Hdom) as HSs.
  destruct (subset_image_total A _ HA Hdom) as [y Hy].
  destruct (index_Ok x ((foldr insert_by_key []
              (keyed (_sorting A) <$> elements (b ∪ {[x]}))).*2))
    as (p & Hp & Hlook & _).
  { rewrite (sorted_by_rank_elem_of _ _ _ x HSs). set_solver. }
  eexists _, p, y. split; [exact HSs|].
  split; [eapply sorted_by_rank_sorted; [apply HA|done]|].
  split; [done|]. split; [done|].
  unfold product_on_basis. cbn [product_on_basis_fuel].
  rewrite decide_False by set_solver.
  rewrite decide_False by done.
  rewrite decide_True by set_solver.
  rewrite decide_True by apply size_singleton.
  rewrite elements_singleton, HSs. cbn [mbind res_bind].
  rewrite Hp. cbn [mbind res_bind]. by rewrite Hy.
Qed.

Lemma product_on_basis_singleton_witness :
  ∃ Ss p y,
    sorted_by_rank (_sorting (algebra_of two_triangles None))
      ({[2; 3]} ∪ {[4]}) = Ok Ss
    ∧ StronglySorted
        (λ u v, rank (_sorting (algebra_of two_triangles None)) u
                < rank (_sorting (algebra_of two_triangles None)) v) Ss
    ∧ Ss !! p = Some 4
    ∧ subset_image (algebra_of two_triangles None) ({[2; 3]} ∪ {[4]}) = Ok y
    ∧ product_on_basis (algebra_of two_triangles None) {[4]} {[2; 3]}
      = Ok (lc_scal (sign p) y).
Proof.
  apply (product_on_basis_singleton two_triangles None).
  - init_compute.
  - by_compute.
  - by_compute.
  - by_compute.
Defined.

(** * Further properties *)

(** ** The ordering index built by the constructor *)

Lemma enumerate_from_lookup i o d x k :
  enumerate_from i o d !! x = Some k ↔
    (∃ j, o !! j = Some x ∧ k = i + j ∧ x ∉ drop (S j) o)
    ∨ ((x ∉ o) ∧ d !! x = Some k).
Proof.
  revert i d. induction o as [|y o IH]; intros i d; simpl.
  - split.
    + intros H. right. split; [apply not_elem_of_nil|done].
    + by intros [(j & Hj & _)|[_ H]].
  - rewrite IH. split.
    + intros [(j & Hj & -> & Hd)|[Hx Hl]].
      * left. exists (S j). split; [done|]. split; [lia|done].
      * destruct (decide (x = y)) as [->|Hne].
        -- rewrite lookup_insert_eq in Hl. injection Hl as <-.
           left. exists 0. simpl. rewrite drop_0.
           split; [done|]. split; [lia|done].
        -- rewrite lookup_insert_ne in Hl by done.
           right. split; [|done]. rewrite elem_of_cons. intros [?|?]; done.
    + intros [(j & Hj & -> & Hd)|[Hx Hl]].
      * destruct j as [|j]; simpl in *.
        -- injection Hj as ->. rewrite drop_0 in Hd.
           right. split; [done|]. rewrite lookup_insert_eq. f_equal. lia.
        -- left. exists j. split; [done|]. split; [lia|done].
      * right. apply not_elem_of_cons in Hx as [Hne Hx].
        split; [done|]. by rewrite lookup_insert_ne.
Qed.

Lemma enumerate_index_lookup o x k :
  enumerate_index o !! x = Some k ↔ o !! k = Some x ∧ x ∉ drop (S k) o.
Proof.
  unfold enumerate_index. rewrite enumerate_from_lookup. split.
  - intros [(j & Hj & -> & Hd)|[_ H]]; [done|]. by rewrite lookup_empty in H.
  - intros [Hk Hd]. left. by exists k.
Qed.


Lemma init_sorting M ordering A :
  __init__ M ordering = Ok A →
  _sorting A = enumerate_index (ordering_of M ordering).
Proof.
  unfold __init__.
  by intros (d & Hd & (idx & _ & [= <-])%res_bind_Ok)%res_bind_Ok.
Qed.

(** X1.  After construction with an explicit ordering, the rank of an
    element is the index of its last occurrence in the ordering: a
    repeated element keeps the later index, and an element that does not
    occur has no rank. *)
Theorem init_sorting_last_index (M : Matroid) (o : list nat)
    (A : OrlikSolomonAlgebra) (x k : nat) :
  __init__ M (Some o) = Ok A →
  _sorting A !! x = Some k ↔ o !! k = Some x ∧ x ∉ drop (S k) o.
Proof.
  intros HA. rewrite (init_sorting _ _ _ HA). apply enumerate_index_lookup.
Qed.

Lemma init_sorting_last_index_witness :
  _sorting (algebra_of free2 (Some [0; 1; 1])) !! 1 = Some 2
  ↔ [0; 1; 1] !! 2 = Some 1 ∧ 1 ∉ drop 3 [0; 1; 1].
Proof.
  apply (init_sorting_last_index free2 [0; 1; 1]
           (algebra_of free2 (Some [0; 1; 1])) 1 2).
  init_compute.
Defined.

Lemma sorted_lookup_lt (l : list nat) i j x y :
  StronglySorted (≤) l → NoDup l →
  l !! i = Some x → l !! j = Some y → i < j → x < y.
Proof.
  intros Hs Hn Hi Hj Hij.
  assert (x ≤ y).
  { revert i j Hi Hj Hij. induction Hs as [|a l Hs IH Hall]; intros i j Hi Hj Hij.
    { done. }
    apply NoDup_cons in Hn as [_ Hn].
    destruct j as [|j]; [lia|]. simpl in Hj.
    destruct i as [|i]; simpl in Hi.
    - injection Hi as ->. rewrite Forall_forall in Hall.
      apply Hall. by eapply list_elem_of_lookup_2.
    - eapply (IH Hn i j); [done..|lia]. }
  assert (x ≠ y); [|lia].
  intros ->. assert (i = j); [|lia]. by eapply NoDup_lookup.
Qed.

(** X2.  With the default ordering the elements known to the ordering
    are exactly the ground set, and ranks follow the order of the
    elements: [x < y] exactly when the rank of [x] is below that of
    [y]. *)
Theorem init_default_ranks (M : Matroid) (A : OrlikSolomonAlgebra)
    (x y : nat) :
  __init__ M None = Ok A →
  dom (_sorting A) = groundset M
  ∧ (x ∈ groundset M → y ∈ groundset M →
     (x < y ↔ rank (_sorting A) x < rank (_sorting A) y)).
Proof.
  intros HA. rewrite (init_sorting _ _ _ HA). simpl.
  set (o := merge_sort (≤) (elements (groundset M))).
  assert (o ≡ₚ elements (groundset M)) as Hp by apply merge_sort_Permutation.
  assert (NoDup o) as Hnd by (rewrite Hp; apply NoDup_elements).
  assert (StronglySorted (≤) o) as Hs
    by (apply StronglySorted_merge_sort; apply _).
  split.
  { rewrite enumerate_index_dom. apply set_eq. intros z.
    by rewrite elem_of_list_to_set, Hp, elem_of_elements. }
  intros Hx Hy.
  assert (∀ z, z ∈ groundset M →
            ∃ k, o !! k = Some z ∧ rank (enumerate_index o) z = k) as Hrk.
  { intros z Hz. assert (z ∈ o) as Hzo by (by rewrite Hp, elem_of_elements).
    apply list_elem_of_lookup in Hzo as [k Hk]. exists k. split; [done|].
    unfold rank.
    assert (enumerate_index o !! z = Some k) as ->; [|done].
    apply enumerate_index_lookup. split; [done|].
    intros [j Hj]%list_elem_of_lookup. rewrite lookup_drop in Hj.
    assert (k = S k + j); [|lia]. by eapply NoDup_lookup. }
  destruct (Hrk x Hx) as (kx & Hkx & ->).
  destruct (Hrk y Hy) as (ky & Hky & ->).
  split.
  - intros Hxy. destruct (decide (kx < ky)) as [|Hn]; [done|].
    destruct (decide (kx = ky)) as [->|Hne].
    + rewrite Hkx in Hky. injection Hky as ->. lia.
    + pose proof (sorted_lookup_lt o ky kx y x Hs Hnd Hky Hkx). lia.
  - intros Hk. by eapply (sorted_lookup_lt o kx ky).
Qed.

Lemma init_default_ranks_witness :
  dom (_sorting (algebra_of two_triangles None)) = groundset two_triangles
  ∧ (1 ∈ groundset two_triangles → 3 ∈ groundset two_triangles →
     (1 < 3 ↔ rank (_sorting (algebra_of two_triangles None)) 1
              < rank (_sorting (algebra_of two_triangles None)) 3)).
Proof.
  apply (init_default_ranks two_triangles (algebra_of two_triangles None) 1 3).
  init_compute.
Defined.

(** ** When the constructor returns *)

Lemma res_foldl_app {A B} (f : A → B → res A) acc l1 l2 :
  res_foldl f acc (l1 ++ l2) = acc' ← res_foldl f acc l1; res_foldl f acc' l2.
Proof.
  revert acc. induction l1 as [|x l1 IH]; intros acc; simpl; [done|].
  destruct (f acc x); simpl; [apply IH|done..].
Qed.

Lemma rank_of_mapM_cases sorting l :
  Forall (λ x, x ∈ dom sorting) l
  ∨ res_mapM (rank_of sorting) l = Raise KeyError.
Proof.
  induction l as [|x l IH]; [by left|]. cbn [res_mapM].
  destruct (sorting !! x) as [k|] eqn:Hx.
  - assert (rank_of sorting x = Ok (k, x)) as ->
      by (unfold rank_of; by rewrite Hx).
    destruct IH as [IH| ->]; [|by right].
    left. constructor; [|done]. by apply elem_of_dom.
  - assert (rank_of sorting x = Raise KeyError) as ->
      by (unfold rank_of; by rewrite Hx).
    by right.
Qed.

Lemma sorted_by_rank_KeyError sorting X :
  ¬ X ⊆ dom sorting → sorted_by_rank sorting X = Raise KeyError.
Proof.
  intros HX. unfold sorted_by_rank.
  destruct (rank_of_mapM_cases sorting (elements X)) as [H| ->]; [|done].
  destruct HX. intros x Hx%elem_of_elements.
  rewrite Forall_forall in H. by apply H.
Qed.

Lemma add_broken_circuit_total sorting d c :
  c ≠ ∅ → c ⊆ dom sorting → ∃ d', add_broken_circuit sorting d c = Ok d'.
Proof.
  intros Hne Hsub. unfold add_broken_circuit.
  pose proof (sorted_by_rank_Ok sorting c Hsub) as HSs. rewrite HSs. simpl.
  apply sorted_by_rank_perm in HSs.
  destruct (foldr insert_by_key [] (keyed sorting <$> elements c)).*2
    as [|i bc] eqn:HL; [|by eexists].
  apply Permutation_nil in HSs.
  by apply elements_empty_inv, leibniz_equiv in HSs.
Qed.

Lemma broken_circuit_fold_total sorting cs d :
  Forall (λ c, c ≠ ∅ ∧ c ⊆ dom sorting) cs →
  ∃ d', res_foldl (add_broken_circuit sorting) d cs = Ok d'.
Proof.
  intros H. revert d. induction H as [|c cs [Hne Hsub] _ IH]; intros d; simpl.
  { by eexists. }
  destruct (add_broken_circuit_total sorting d c Hne Hsub) as [d1 ->]. simpl.
  apply IH.
Qed.

(** X3.  Construction with an explicit ordering returns exactly when
    every circuit is nonempty and made of elements that occur in the
    ordering, and the matroid can list its NBC sets for the ordering.
    Nothing else about the ordering is checked: it may repeat elements
    and may leave out ground-set elements that lie in no circuit. *)
Theorem init_returns_iff (M : Matroid) (o : list nat) :
  (∃ A, __init__ M (Some o) = Ok A) ↔
    Forall (λ c, c ≠ ∅ ∧ c ⊆ list_to_set o) (circuits M)
    ∧ (∃ idx, no_broken_circuits_sets M o = Ok idx).
Proof.
  split.
  - intros [A HA]. split.
    + apply Forall_forall. intros c Hc.
      pose proof (init_sorting _ _ _ HA) as Hs.
      apply init_inv in HA as (_ & _ & Htab).
      rewrite <-(enumerate_index_dom o). simpl in Hs. rewrite <-Hs.
      by eapply broken_circuit_table_dom.
    + unfold __init__ in HA.
      apply res_bind_Ok in HA as (d & _ & (idx & Hidx & _)%res_bind_Ok).
      by exists idx.
  - intros [Hcs [idx Hidx]]. unfold __init__.
    destruct (broken_circuit_fold_total (enumerate_index o) (circuits M) [])
      as [d Hd].
    { by rewrite enumerate_index_dom. }
    unfold broken_circuit_table. rewrite Hd. simpl. rewrite Hidx. simpl.
    by eexists.
Qed.

Lemma broken_circuit_fold_KeyError sorting cs d :
  Forall (λ c, c ≠ ∅) cs →
  Exists (λ c, ¬ c ⊆ dom sorting) cs →
  res_foldl (add_broken_circuit sorting) d cs = Raise KeyError.
Proof.
  intros Hne Hex. revert d.
  induction cs as [|c cs IH]; intros d; [by apply Exists_nil in Hex|].
  apply Forall_cons in Hne as [Hc Hne]. simpl.
  destruct (decide (c ⊆ dom sorting)) as [Hsub|Hsub].
  - destruct (add_broken_circuit_total sorting d c Hc Hsub) as [d1 ->]. simpl.
    apply IH; [done|]. by apply Exists_cons in Hex as [?|?].
  - unfold add_broken_circuit. by rewrite sorted_by_rank_KeyError.
Qed.

(** X4.  When some circuit has an element that does not occur in the
    ordering (and no circuit is empty), construction raises
    [KeyError]. *)
Theorem init_missing_KeyError (M : Matroid) (o : list nat) :
  Forall (λ c, c ≠ ∅) (circuits M) →
  Exists (λ c, ¬ c ⊆ list_to_set o) (circuits M) →
  __init__ M (Some o) = Raise KeyError.
Proof.
  intros Hne Hex. unfold __init__, broken_circuit_table.
  rewrite broken_circuit_fold_KeyError; [done..|].
  by rewrite enumerate_index_dom.
Qed.

Lemma init_missing_KeyError_witness :
  __init__ U34 (Some [0; 1; 2]) = Raise KeyError.
Proof.
  apply (init_missing_KeyError U34 [0; 1; 2]).
  - by_compute.
  - by_compute.
Defined.

(** ** The table of broken circuits after construction *)

Lemma dict_set_fst k v d :
  (dict_set k v d).*1 = if decide (k ∈ d.*1) then d.*1 else d.*1 ++ [k].
Proof.
  induction d as [|[k' v'] d IH]; cbn [dict_set].
  { by destruct (decide (k ∈ [])) as [?%elem_of_nil|]. }
  destruct (decide (k' = k)) as [->|Hne]; rewrite !fmap_cons; cbn [fst].
  - rewrite decide_True; [done|by left].
  - rewrite IH. destruct (decide (k ∈ d.*1)) as [Hin|Hin].
    + rewrite decide_True; [done|by right].
    + rewrite decide_False; [done|].
      rewrite not_elem_of_cons. by split.
Qed.

Lemma dict_set_NoDup k v d : NoDup d.*1 → NoDup (dict_set k v d).*1.
Proof.
  intros Hd. rewrite dict_set_fst. case_decide as Hin; [done|].
  apply NoDup_app. split; [done|]. split; [|apply NoDup_singleton].
  intros x Hx ->%list_elem_of_singleton. done.
Qed.

Lemma broken_circuit_fold_NoDup sorting cs d d' :
  NoDup d.*1 →
  res_foldl (add_broken_circuit sorting) d cs = Ok d' → NoDup d'.*1.
Proof.
  revert d. induction cs as [|c cs IH]; intros d Hd; simpl.
  { by intros [= <-]. }
  intros (d1 & Hd1 & Hd')%res_bind_Ok. eapply IH; [|done].
  unfold add_broken_circuit in Hd1.
  apply res_bind_Ok in Hd1 as (L & _ & HL).
  destruct L as [|i bc]; [done|]. injection HL as <-.
  by apply dict_set_NoDup.
Qed.

Lemma NoDup_fst_functional {K V} (d : list (K * V)) k v v' :
  NoDup d.*1 → (k, v) ∈ d → (k, v') ∈ d → v = v'.
Proof.
  induction d as [|[k0 v0] d IH]; simpl; [by intros _ ?%elem_of_nil|].
  intros [Hk0 Hd]%NoDup_cons [[= -> ->]|H1]%elem_of_cons
    [[= ->]|H2]%elem_of_cons.
  - done.
  - destruct Hk0. by apply (list_elem_of_fmap_2 fst) in H2.
  - destruct Hk0. by apply (list_elem_of_fmap_2 fst) in H1.
  - by apply IH.
Qed.

(** X5.  After construction, every entry [(bc, i)] of the table of broken
    circuits comes from a circuit: [bc] with [i] added is a circuit,
    [i] is not in [bc], [i] has smaller rank than every element of [bc],
    and [bc] is the key of no other entry.  Every circuit contains the
    key of some entry. *)
Theorem init_table_entries (M : Matroid) (ordering : option (list nat))
    (A : OrlikSolomonAlgebra) (bc : gset nat) (i : nat) :
  __init__ M ordering = Ok A →
  (bc, i) ∈ _broken_circuits A →
  {[i]} ∪ bc ∈ circuits M
  ∧ (i ∉ bc)
  ∧ (∀ j, j ∈ bc → rank (_sorting A) i < rank (_sorting A) j)
  ∧ (∀ i', (bc, i') ∈ _broken_circuits A → i' = i)
  ∧ (∀ c, c ∈ circuits M → ∃ bc' i', (bc', i') ∈ _broken_circuits A ∧ bc' ⊆ c).
Proof.
  intros (HM & [_ Htab] & Hd)%init_inv Hin. rewrite HM in Htab.
  split; [by eapply table_circuit|].
  split; [by eapply table_fresh|].
  split; [intros j Hj; by eapply table_min|].
  split; [|by eapply table_cover].
  intros i' Hin'. eapply NoDup_fst_functional; [|done..].
  eapply broken_circuit_fold_NoDup; [|exact Hd]. apply NoDup_nil_2.
Qed.

Lemma init_table_entries_witness :
  {[0]} ∪ {[3; 4]} ∈ circuits two_triangles
  ∧ (0 ∉ ({[3; 4]} : gset nat))
  ∧ (∀ j, j ∈ ({[3; 4]} : gset nat) →
       rank (_sorting (algebra_of two_triangles None)) 0
       < rank (_sorting (algebra_of two_triangles None)) j)
  ∧ (∀ i', ({[3; 4]}, i') ∈ _broken_circuits (algebra_of two_triangles None)
       → i' = 0)
  ∧ (∀ c, c ∈ circuits two_triangles →
       ∃ bc' i', (bc', i') ∈ _broken_circuits (algebra_of two_triangles None)
                 ∧ bc' ⊆ c).
Proof.
  apply (init_table_entries two_triangles None).
  - init_compute.
  - by_compute.
Defined.

(** ** When [subset_image] returns *)

(** X6.  After construction, [subset_image X] returns exactly when
    every element of [X] occurs in the ordering. *)
Theorem subset_image_returns_iff (M : Matroid) (ordering : option (list nat))
    (A : OrlikSolomonAlgebra) (X : gset nat) :
  __init__ M ordering = Ok A →
  (∃ r, subset_image A X = Ok r) ↔ X ⊆ dom (_sorting A).
Proof.
  intros (_ & HA & _)%init_inv. split.
  - intros [r Hr]. unfold subset_image in Hr. simpl in Hr.
    apply res_bind_Ok in Hr as (Ss & HSs & _).
    by eapply sorted_by_rank_dom.
  - by apply subset_image_total.
Qed.

Lemma subset_image_returns_iff_witness :
  (∃ r, subset_image (algebra_of two_triangles None) {[1; 2; 3; 4]} = Ok r)
  ↔ {[1; 2; 3; 4]} ⊆ dom (_sorting (algebra_of two_triangles None)).
Proof.
  apply (subset_image_returns_iff two_triangles None). init_compute.
Defined.

(** X7.  [subset_image X] raises [KeyError] when some element of [X]
    does not occur in the ordering, whatever the table holds: the set is
    sorted by rank before the table is scanned. *)
Theorem subset_image_KeyError (A : OrlikSolomonAlgebra) (X : gset nat) :
  ¬ X ⊆ dom (_sorting A) → subset_image A X = Raise KeyError.
Proof.
  intros HX. unfold subset_image. simpl.
  by rewrite sorted_by_rank_KeyError.
Qed.

Lemma subset_image_KeyError_witness :
  subset_image (algebra_of two_triangles None) {[0; 3; 4; 7]} = Raise KeyError.
Proof.
  apply (subset_image_KeyError (algebra_of two_triangles None)). by_compute.
Defined.

(** ** The support of [subset_image] *)

Lemma subset_image_fuel_nbc A n X r :
  subset_image_fuel A n X = Ok r →
  set_Forall (is_nbc (_broken_circuits A)) (dom r).
Proof.
  revert X r. induction n as [|n IH]; intros X r; [done|]. simpl.
  intros (Ss & HSs & Hr)%res_bind_Ok.
  destruct (scan (_broken_circuits A) X) as [[bc i]|] eqn:Hs.
  - case_decide as Hi.
    + injection Hr as <-. unfold zero. rewrite dom_empty_L.
      by intros ? ?%elem_of_empty.
    + eapply rewrite_loop_dom; [| |exact Hr].
      * intros j x _ Hj Hx. by eapply IH.
      * unfold zero. rewrite dom_empty_L. by intros ? ?%elem_of_empty.
  - injection Hr as <-. rewrite dom_monomial.
    intros m ->%elem_of_singleton. by apply scan_None.
Qed.

(** X8.  Whenever [subset_image X] returns, every basis index of the
    result is an NBC set: no key of the table is contained in it. *)
Theorem subset_image_nbc_support (A : OrlikSolomonAlgebra) (X : gset nat)
    (r : lc) (m : gset nat) :
  subset_image A X = Ok r →
  m ∈ dom r →
  is_nbc (_broken_circuits A) m.
Proof. intros Hr Hm. by eapply subset_image_fuel_nbc. Qed.

Lemma subset_image_nbc_support_witness :
  is_nbc (_broken_circuits (algebra_of two_triangles None)) {[0; 1; 4]}.
Proof.
  apply (subset_image_nbc_support (algebra_of two_triangles None) {[2; 3; 4]}
           (from_res zero
              (subset_image (algebra_of two_triangles None) {[2; 3; 4]}))).
  - apply is_Ok_from_res. vm_compute. reflexivity.
  - by_compute.
Defined.

(** X9.  For a set [X] of elements of the ordering, [subset_image X]
    is the basis element of [X] itself exactly when [X] is an NBC set. *)
Theorem subset_image_monomial_iff (A : OrlikSolomonAlgebra) (X : gset nat) :
  X ⊆ dom (_sorting A) →
  subset_image A X = Ok (monomial X) ↔ is_nbc (_broken_circuits A) X.
Proof.
  intros HX. split.
  - intros Hr. eapply subset_image_fuel_nbc; [exact Hr|].
    rewrite dom_monomial. by apply elem_of_singleton.
  - intros Hnbc%scan_None. unfold subset_image. simpl.
    by rewrite (sorted_by_rank_Ok _ _ HX), Hnbc.
Qed.

Lemma subset_image_monomial_iff_witness :
  subset_image (algebra_of two_triangles None) {[2; 3; 4]}
    = Ok (monomial {[2; 3; 4]})
  ↔ is_nbc (_broken_circuits (algebra_of two_triangles None)) {[2; 3; 4]}.
Proof.
  apply (subset_image_monomial_iff (algebra_of two_triangles None)).
  by_compute.
Defined.

(** ** [algebra_generators] *)

Lemma generators_fold A l (G0 G : gmap nat lc) :
  res_foldl (λ G i, g ← subset_image A {[i]}; Ok (<[i := g]> G)) G0 l = Ok G →
  ∀ i g, G !! i = Some g ↔
    (i ∈ l ∧ subset_image A {[i]} = Ok g) ∨ ((i ∉ l) ∧ G0 !! i = Some g).
Proof.
  revert G0. induction l as [|x l IH]; intros G0; simpl.
  { intros [= <-] i g. split; [intros ?; right; split; [apply not_elem_of_nil|done]|].
    by intros [[?%elem_of_nil _]|[_ ?]]. }
  intros (G1 & (gx & Hgx & [= <-])%res_bind_Ok & HG)%res_bind_Ok i g.
  rewrite (IH _ HG), elem_of_cons.
  destruct (decide (i = x)) as [->|Hne].
  - rewrite lookup_insert_eq. split.
    + intros [[_ ?]|[_ [= <-]]]; left; split; auto.
    + intros [[_ Hg]|[Hn _]]; [|destruct Hn; by left].
      destruct (decide (x ∈ l)); [left|right]; split; try done.
      congruence.
  - rewrite lookup_insert_ne by done. split.
    + intros [[? ?]|[? ?]]; [left|right]; split; auto.
      by intros [?|?].
    + intros [[[?|?] ?]|[Hn ?]]; [done|left|right]; split; auto.
Qed.

Lemma elem_of_sorted_groundset (g : gset nat) i :
  i ∈ merge_sort (≤) (elements g) ↔ i ∈ g.
Proof. by rewrite merge_sort_Permutation, elem_of_elements. Qed.

(** X10.  The family returned by [algebra_generators] is indexed by the
    ground set of the matroid, and its member at [i] is
    [subset_image {i}]. *)
Theorem algebra_generators_members (A : OrlikSolomonAlgebra)
    (G : gmap nat lc) (i : nat) (g : lc) :
  algebra_generators A = Ok G →
  G !! i = Some g ↔ i ∈ groundset (_M A) ∧ subset_image A {[i]} = Ok g.
Proof.
  intros HG. rewrite (generators_fold _ _ _ _ HG i g), lookup_empty.
  rewrite elem_of_sorted_groundset. split; [|by left].
  by intros [?|[_ ?]].
Qed.

Lemma algebra_generators_members_witness :
  from_res ∅ (algebra_generators (algebra_of U34 None)) !! 3
    = Some (monomial {[3]})
  ↔ 3 ∈ groundset (_M (algebra_of U34 None))
    ∧ subset_image (algebra_of U34 None) {[3]} = Ok (monomial {[3]}).
Proof.
  apply (algebra_generators_members (algebra_of U34 None)).
  apply is_Ok_from_res. vm_compute. reflexivity.
Defined.

Lemma generators_fold_cases A l (G0 : gmap nat lc) :
  alg_ok A →
  (Forall (λ i, i ∈ dom (_sorting A)) l
   ∧ ∃ G, res_foldl (λ G i, g ← subset_image A {[i]}; Ok (<[i := g]> G))
            G0 l = Ok G)
  ∨ (¬ Forall (λ i, i ∈ dom (_sorting A)) l
     ∧ res_foldl (λ G i, g ← subset_image A {[i]}; Ok (<[i := g]> G))
         G0 l = Raise KeyError).
Proof.
  intros HA. revert G0. induction l as [|x l IH]; intros G0; simpl.
  { left. split; [done|by eexists]. }
  destruct (decide (x ∈ dom (_sorting A))) as [Hx|Hx].
  - destruct (subset_image_total A {[x]} HA) as [g ->]; [set_solver|]. simpl.
    destruct (IH (<[x:=g]> G0)) as [[Hl HG]|[Hl HG]].
    + left. split; [by constructor|done].
    + right. split; [|done]. by intros [_ ?]%Forall_cons.
  - right. split; [by intros [? _]%Forall_cons|].
    assert (subset_image A {[x]} = Raise KeyError) as ->; [|done].
    unfold subset_image. simpl. rewrite sorted_by_rank_KeyError; [done|].
    set_solver.
Qed.

(** X11.  After construction, [algebra_generators] returns exactly when
    every element of the ground set occurs in the ordering; otherwise it
    raises [KeyError]. *)
Theorem algebra_generators_returns_iff (M : Matroid)
    (ordering : option (list nat)) (A : OrlikSolomonAlgebra) :
  __init__ M ordering = Ok A →
  ((∃ G, algebra_generators A = Ok G) ↔ groundset M ⊆ dom (_sorting A))
  ∧ ((∃ G, algebra_generators A = Ok G)
     ∨ algebra_generators A = Raise KeyError).
Proof.
  intros (HM & HA & _)%init_inv. unfold algebra_generators. rewrite HM.
  destruct (generators_fold_cases A
              (merge_sort (≤) (elements (groundset M))) ∅ HA)
    as [[Hl HG]|[Hl HG]].
  - split; [|by left]. split; [|done]. intros _ x Hx.
    rewrite Forall_forall in Hl. by apply Hl, elem_of_sorted_groundset.
  - split; [|by right]. rewrite HG. split; [by intros [??]|].
    intros Hsub. destruct Hl. apply Forall_forall.
    intros x Hx%elem_of_sorted_groundset. by apply Hsub.
Qed.

Lemma algebra_generators_returns_iff_witness :
  ((∃ G, algebra_generators (algebra_of free2 (Some [0])) = Ok G)
   ↔ groundset free2 ⊆ dom (_sorting (algebra_of free2 (Some [0]))))
  ∧ ((∃ G, algebra_generators (algebra_of free2 (Some [0])) = Ok G)
     ∨ algebra_generators (algebra_of free2 (Some [0])) = Raise KeyError).
Proof.
  apply (algebra_generators_returns_iff free2 (Some [0])). init_compute.
Defined.


(** ** Folds that may raise *)

Lemma res_foldl_inv_n {A B} (f : A → B → res A) (I : nat → A → Prop)
    l k acc v :
  (∀ j a x a', I j a → x ∈ l → f a x = Ok a' → I (S j) a') →
  I k acc → res_foldl f acc l = Ok v → I (k + length l) v.
Proof.
  revert k acc. induction l as [|x l IH]; intros k acc Hstep Hacc; simpl.
  { intros [= <-]. by rewrite Nat.add_0_r. }
  intros (a1 & Ha1 & Hv)%res_bind_Ok.
  replace (k + S (length l)) with (S k + length l) by lia.
  eapply IH; [|eapply Hstep; [done|by left|done]|done].
  intros j a y a' Hj Hy. apply Hstep; [done|by right].
Qed.

Lemma res_foldl_inv {A B} (f : A → B → res A) (I : A → Prop) l acc v :
  (∀ a x a', I a → x ∈ l → f a x = Ok a' → I a') →
  I acc → res_foldl f acc l = Ok v → I v.
Proof.
  intros Hstep Hacc Hv.
  apply (res_foldl_inv_n f (λ _, I) l 0 acc v); [|done..].
  intros _. apply Hstep.
Qed.


(** ** The product of two elements *)

Lemma lc_mul_dom pob (x y v : lc) (R : gset nat → Prop) :
  (∀ ml mr p, ml ∈ dom x → mr ∈ dom y → pob ml mr = Ok p →
     set_Forall R (dom p)) →
  lc_mul pob x y = Ok v → set_Forall R (dom v).
Proof.
  intros Hpob. unfold lc_mul.
  apply (res_foldl_inv _ (λ acc : lc, set_Forall R (dom acc))).
  - intros acc [ml cl] acc' Hacc Hml%elem_of_map_to_list.
    apply (res_foldl_inv _ (λ acc : lc, set_Forall R (dom acc))); [|done].
    intros acc1 [mr cr] acc2 Hacc1 Hmr%elem_of_map_to_list.
    intros (p & Hp & [= <-])%res_bind_Ok m [Hm|Hm]%dom_lc_add%elem_of_union.
    + by apply Hacc1.
    + apply dom_lc_scal in Hm.
      eapply Hpob; [by eapply elem_of_dom_2..|done|done].
  - unfold zero. rewrite dom_empty_L. by intros ? ?%elem_of_empty.
Qed.


Lemma family_get_Ok (G : gmap nat lc) i g :
  family_get G i = Ok g ↔ G !! i = Some g.
Proof.
  unfold family_get. destruct (G !! i); split; intros H; by inversion H.
Qed.

Lemma algebra_generators_lookup A G i g :
  algebra_generators A = Ok G → G !! i = Some g →
  subset_image A {[i]} = Ok g.
Proof.
  intros HG Hi. apply (generators_fold _ _ _ _ HG i g) in Hi.
  destruct Hi as [[_ ?]|[_ Hi]]; [done|]. by rewrite lookup_empty in Hi.
Qed.

Lemma sorted_by_rank_length sorting X Ss :
  sorted_by_rank sorting X = Ok Ss → length Ss = size X.
Proof. intros ->%sorted_by_rank_perm. done. Qed.

(** ** The degree of a product *)

Lemma product_on_basis_fuel_degree A n a b r :
  product_on_basis_fuel A n a b = Ok r →
  set_Forall (λ m, size m = size a + size b) (dom r).
Proof.
  revert a b r. induction n as [|n IH]; intros a b r; [done|].
  cbn [product_on_basis_fuel].
  case_decide as Ha.
  { intros [= <-]. subst a. rewrite dom_monomial, size_empty.
    by intros m ->%elem_of_singleton. }
  case_decide as Hb.
  { intros [= <-]. subst b. rewrite dom_monomial, size_empty.
    intros m ->%elem_of_singleton. lia. }
  case_decide as Hd.
  2:{ intros [= <-]. unfold zero. rewrite dom_empty_L.
      by intros ? ?%elem_of_empty. }
  case_decide as H1.
  - destruct (elements a) as [|i l] eqn:He; [done|].
    intros (Ss & HSs & (p & Hp & (x & Hx & [= <-])%res_bind_Ok)%res_bind_Ok)
      %res_bind_Ok m Hm%dom_lc_scal.
    rewrite (subset_image_fuel_degree _ _ _ _ Hx m Hm).
    assert (i ∈ a) as Hi by (apply elem_of_elements; rewrite He; by left).
    rewrite size_union, size_singleton by set_solver. lia.
  - intros (G & HG & (a_sorted & Hs & Hfold)%res_bind_Ok)%res_bind_Ok.
    rewrite <-(sorted_by_rank_length _ _ _ Hs).
    eapply (res_foldl_inv_n _
      (λ j (r : lc), set_Forall (λ m, size m = j + size b) (dom r))
      a_sorted 0); [| |exact Hfold].
    + intros j r0 x r' Hr0 Hx (g & Hg%family_get_Ok & Hr')%res_bind_Ok.
      apply (algebra_generators_lookup _ _ _ _ HG) in Hg.
      eapply lc_mul_dom; [|exact Hr'].
      intros ml mr p Hml Hmr Hp m Hm.
      rewrite (IH _ _ _ Hp m Hm), (Hr0 mr Hmr).
      rewrite (subset_image_fuel_degree _ _ _ _ Hg ml Hml), size_singleton.
      lia.
    + rewrite dom_singleton_L. by intros m ->%elem_of_singleton.
Qed.

(** X12.  The product respects the grading: whenever
    [product_on_basis a b] returns, every basis index of the result has
    degree [degree a + degree b]. *)
Theorem product_on_basis_degree (A : OrlikSolomonAlgebra) (a b : gset nat)
    (r : lc) (m : gset nat) :
  product_on_basis A a b = Ok r →
  m ∈ dom r →
  degree_on_basis m = degree_on_basis a + degree_on_basis b.
Proof. intros Hr Hm. by eapply product_on_basis_fuel_degree. Qed.

Lemma product_on_basis_degree_witness :
  degree_on_basis {[0; 1; 4]}
  = degree_on_basis {[2; 3]} + degree_on_basis {[4]}.
Proof.
  apply (product_on_basis_degree (algebra_of two_triangles None)
           {[2; 3]} {[4]}
           (from_res zero
              (product_on_basis (algebra_of two_triangles None)
                 {[2; 3]} {[4]}))).
  - apply is_Ok_from_res. vm_compute. reflexivity.
  - by_compute.
Defined.

(** ** The support of a product *)

Lemma product_on_basis_fuel_nbc A n a b r :
  is_nbc (_broken_circuits A) a → is_nbc (_broken_circuits A) b →
  product_on_basis_fuel A n a b = Ok r →
  set_Forall (is_nbc (_broken_circuits A)) (dom r).
Proof.
  revert a b r. induction n as [|n IH]; intros a b r Hna Hnb; [done|].
  cbn [product_on_basis_fuel].
  case_decide as Ha.
  { intros [= <-]. rewrite dom_monomial. by intros m ->%elem_of_singleton. }
  case_decide as Hb.
  { intros [= <-]. rewrite dom_monomial. by intros m ->%elem_of_singleton. }
  case_decide as Hd.
  2:{ intros [= <-]. unfold zero. rewrite dom_empty_L.
      by intros ? ?%elem_of_empty. }
  case_decide as H1.
  - destruct (elements a) as [|i l] eqn:He; [done|].
    intros (Ss & HSs & (p & Hp & (x & Hx & [= <-])%res_bind_Ok)%res_bind_Ok)
      %res_bind_Ok m Hm%dom_lc_scal.
    by eapply subset_image_fuel_nbc.
  - intros (G & HG & (a_sorted & Hs & Hfold)%res_bind_Ok)%res_bind_Ok.
    eapply (res_foldl_inv _
      (λ r : lc, set_Forall (is_nbc (_broken_circuits A)) (dom r)));
      [| |exact Hfold].
    + intros r0 x r' Hr0 Hx (g & Hg%family_get_Ok & Hr')%res_bind_Ok.
      apply (algebra_generators_lookup _ _ _ _ HG) in Hg.
      eapply lc_mul_dom; [|exact Hr'].
      intros ml mr p Hml Hmr Hp. eapply IH; [| |exact Hp].
      * by eapply subset_image_fuel_nbc.
      * by apply Hr0.
    + rewrite dom_singleton_L. by intros m ->%elem_of_singleton.
Qed.

(** X13.  The product stays inside the span of the basis: for NBC sets
    [a] and [b], whenever [product_on_basis a b] returns, every basis
    index of the result is an NBC set. *)
Theorem product_on_basis_nbc_support (A : OrlikSolomonAlgebra)
    (a b : gset nat) (r : lc) (m : gset nat) :
  is_nbc (_broken_circuits A) a →
  is_nbc (_broken_circuits A) b →
  product_on_basis A a b = Ok r →
  m ∈ dom r →
  is_nbc (_broken_circuits A) m.
Proof.
  intros Ha Hb Hr Hm.
  exact (product_on_basis_fuel_nbc A 2 a b r Ha Hb Hr m Hm).
Qed.

Lemma product_on_basis_nbc_support_witness :
  is_nbc (_broken_circuits (algebra_of two_triangles None)) {[0; 1; 4]}.
Proof.
  apply (product_on_basis_nbc_support (algebra_of two_triangles None)
           {[2; 3]} {[4]}
           (from_res zero
              (product_on_basis (algebra_of two_triangles None)
                 {[2; 3]} {[4]}))).
  - by_compute.
  - by_compute.
  - apply is_Ok_from_res. vm_compute. reflexivity.
  - by_compute.
Defined.

(** ** When a product returns *)



Lemma product_on_basis_fuel_S A n a b :
  product_on_basis_fuel A (S n) a b =
    if decide (a = ∅) then Ok (monomial b)
    else if decide (b = ∅) then Ok (monomial a)
    else if decide (a ## b) then
      if decide (size a = 1) then
        match elements a with
        | [] => Raise IndexError
        | i :: _ =>
            ns_sorted ← sorted_by_rank (_sorting A) (b ∪ {[i]});
            p ← index i ns_sorted;
            x ← subset_image A (b ∪ {[i]});
            Ok (lc_scal (sign p) x)
        end
      else
        G ← algebra_generators A;
        a_sorted ← sorted_by_rank (_sorting A) a;
        res_foldl (λ r i,
          g ← family_get G i; lc_mul (product_on_basis_fuel A n) g r)
          ({[ b := if decide (size a mod 4 < 2) then 1%Z else (-1)%Z ]} : lc)
          a_sorted
    else Ok zero.
Proof. done. Qed.



(** ** The unit and the generators in a product *)


Lemma lc_scal_scal c d (x : lc) :
  c ≠ 0%Z → d ≠ 0%Z → lc_scal c (lc_scal d x) = lc_scal (c * d) x.
Proof.
  intros Hc Hd. unfold lc_scal. rewrite !decide_False by lia.
  rewrite <-map_fmap_compose. apply map_fmap_ext. intros m z _. simpl. lia.
Qed.

Lemma lc_scal_1 (x : lc) : lc_scal 1 x = x.
Proof.
  unfold lc_scal. rewrite decide_False by lia.
  rewrite <-(map_fmap_id x) at 2. apply map_fmap_ext. intros m z _. simpl. lia.
Qed.

Lemma product_on_basis_single_value A n x b :
  alg_ok A → b ≠ ∅ → x ∉ b → b ∪ {[x]} ⊆ dom (_sorting A) →
  ∃ Ss p y,
    sorted_by_rank (_sorting A) (b ∪ {[x]}) = Ok Ss
    ∧ Ss !! p = Some x
    ∧ subset_image A (b ∪ {[x]}) = Ok y
    ∧ product_on_basis_fuel A (S n) {[x]} b = Ok (lc_scal (sign p) y).
Proof.
  intros HA Hb Hx Hdom.
  pose proof (sorted_by_rank_Ok _ _ Hdom) as HSs.
  destruct (subset_image_total A _ HA Hdom) as [y Hy].
  destruct (index_Ok x ((foldr insert_by_key []
              (keyed (_sorting A) <$> elements (b ∪ {[x]}))).*2))
    as (p & Hp & Hlook & _).
  { rewrite (sorted_by_rank_elem_of _ _ _ x HSs). set_solver. }
  eexists _, p, y. split; [exact HSs|]. split; [done|]. split; [done|].
  rewrite product_on_basis_fuel_S.
  rewrite decide_False by set_solver.
  rewrite decide_False by done.
  rewrite decide_True by set_solver.
  rewrite decide_True by apply size_singleton.
  rewrite elements_singleton, HSs. cbn [mbind res_bind].
  rewrite Hp. cbn [mbind res_bind]. by rewrite Hy.
Qed.

(** X16.  Two different generators anticommute in [product_on_basis]:
    for different elements [x] and [y] of the ordering,
    [product_on_basis {y} {x}] is minus [product_on_basis {x} {y}]. *)
Theorem product_on_basis_generators_anticommute (M : Matroid)
    (ordering : option (list nat)) (A : OrlikSolomonAlgebra) (x y : nat) :
  __init__ M ordering = Ok A →
  x ≠ y → x ∈ dom (_sorting A) → y ∈ dom (_sorting A) →
  ∃ r, product_on_basis A {[x]} {[y]} = Ok r
       ∧ product_on_basis A {[y]} {[x]} = Ok (lc_scal (-1) r).
Proof.
  intros (_ & HA & _)%init_inv Hxy Hx Hy. unfold product_on_basis.
  destruct (product_on_basis_single_value A 1 x {[y]} HA)
    as (Ss & p & s & HSs & Hp & Hs & ->); [set_solver..|].
  destruct (product_on_basis_single_value A 1 y {[x]} HA)
    as (Ss' & q & s' & HSs' & Hq & Hs' & ->); [set_solver..|].
  assert (({[x]} ∪ {[y]} : gset nat) = {[y]} ∪ {[x]}) as Heq by set_solver.
  rewrite Heq in HSs', Hs'. rewrite HSs in HSs'. injection HSs' as <-.
  rewrite Hs in Hs'. injection Hs' as <-.
  eexists. split; [done|]. f_equal.
  assert (length Ss = 2) as Hlen.
  { rewrite (sorted_by_rank_length _ _ _ HSs).
    rewrite size_union, !size_singleton by set_solver. done. }
  assert (p ≠ q) as Hpq by (intros ->; congruence).
  pose proof (lookup_lt_Some _ _ _ Hp). pose proof (lookup_lt_Some _ _ _ Hq).
  assert ((p = 0 ∧ q = 1) ∨ (p = 1 ∧ q = 0)) as [[-> ->]|[-> ->]] by lia.
  - change (sign 0) with 1%Z. change (sign 1) with (-1)%Z.
    by rewrite lc_scal_1.
  - change (sign 0) with 1%Z. change (sign 1) with (-1)%Z.
    rewrite lc_scal_scal by done. change (-1 * -1)%Z with 1%Z.
    by rewrite lc_scal_1.
Qed.

Lemma product_on_basis_generators_anticommute_witness :
  ∃ r, product_on_basis (algebra_of two_triangles None) {[2]} {[4]} = Ok r
       ∧ product_on_basis (algebra_of two_triangles None) {[4]} {[2]}
         = Ok (lc_scal (-1) r).
Proof.
  apply (product_on_basis_generators_anticommute two_triangles None).
  - init_compute.
  - by_compute.
  - by_compute.
  - by_compute.
Defined.


(** ** [_repr_term] *)

Lemma substring_0_app s t :
  String.substring 0 (String.length s) (s +:+ t) = s.
Proof.
  induction s as [|c s IH]; simpl; [by destruct t|by rewrite IH].
Qed.

Lemma string_length_app s t :
  String.length (s +:+ t) = String.length s + String.length t.
Proof. induction s as [|c s IH]; simpl; [done|by rewrite IH]. Qed.

Lemma slice_1_m1_brackets s : slice_1_m1 ("[" +:+ s +:+ "]") = s.
Proof.
  unfold slice_1_m1. simpl. change ("" +:+ s +:+ "]") with (s +:+ "]").
  rewrite string_length_app. simpl.
  replace (String.length s + 1 - 1) with (String.length s) by lia.
  apply substring_0_app.
Qed.

(** X18.  [_repr_term m] is ["OS{"], the elements of [m] in the order
    in which the frozenset enumerates them, separated by a comma and a
    space, and ["}"]: the slice [[1:-1]] removes exactly the two brackets
    of the list rendering. *)
Theorem repr_term_listing (frozenset_list : gset nat → list nat)
    (m : gset nat) :
  _repr_term frozenset_list m
  = "OS{" +:+ String.concat ", " (pretty <$> frozenset_list m) +:+ "}".
Proof. unfold _repr_term, str_list. by rewrite slice_1_m1_brackets. Qed.

(** ** The order in which [subset_image] recurses *)

Lemma desc_insert_comm a b l :
  desc_insert a (desc_insert b l) = desc_insert b (desc_insert a l).
Proof.
  induction l as [|h l IH]; simpl.
  - repeat case_decide; try done; try lia. f_equal; [lia|f_equal; lia].
  - repeat (case_decide; simpl); try done; try lia.
    + f_equal; [lia|f_equal; lia].
    + by rewrite IH.
Qed.

Lemma desc_ranks_insert sorting x k Y :
  x ∉ Y → sorting !! x = Some k →
  desc_ranks sorting ({[x]} ∪ Y) = desc_insert k (desc_ranks sorting Y).
Proof.
  intros Hx Hk. unfold desc_ranks.
  rewrite (foldr_permutation_proper (=) desc_insert [] desc_insert_comm
             _ (k :: omap (λ y, sorting !! y) (elements Y))); [done|].
  rewrite (elements_union_singleton _ _ Hx). simpl. by rewrite Hk.
Qed.

Lemma desc_insert_lex_lt a b l :
  a < b → lex_lt (desc_insert a l) (desc_insert b l).
Proof.
  intros Hab. induction l as [|h l IH]; simpl.
  - by apply lex_lt_head.
  - repeat case_decide; try lia.
    + by apply lex_lt_head.
    + apply lex_lt_head. lia.
    + by apply lex_lt_tail.
Qed.

(** X19.  In the rewrite branch of [subset_image] the inserted element
    [i] has smaller rank than every element [j] of the broken circuit,
    and the argument of each recursive call comes before [X] when sets
    are compared lexicographically on their ranks listed in descending
    order. *)
Theorem subset_image_recursion_decreases (M : Matroid)
    (ordering : option (list nat)) (A : OrlikSolomonAlgebra)
    (X bc : gset nat) (i j : nat) :
  __init__ M ordering = Ok A →
  X ⊆ dom (_sorting A) →
  scan (_broken_circuits A) X = Some (bc, i) →
  i ∉ X → j ∈ bc →
  rank (_sorting A) i < rank (_sorting A) j
  ∧ set_lex_lt (_sorting A) (symmetric_difference X {[i; j]}) X.
Proof.
  intros (_ & [_ Htab] & _)%init_inv HX [Hin Hsub]%scan_Some Hi Hj.
  pose proof (table_min _ _ _ Htab _ _ _ Hin Hj) as Hlt.
  split; [done|]. unfold set_lex_lt.
  destruct (table_dom _ _ _ Htab _ _ Hin) as [Hidom _].
  assert (j ∈ X) as HjX by set_solver.
  apply elem_of_dom in Hidom as [ki Hki].
  assert (j ∈ dom (_sorting A)) as [kj Hkj]%elem_of_dom by set_solver.
  unfold rank in Hlt. rewrite Hki, Hkj in Hlt. simpl in Hlt.
  rewrite symmetric_difference_swap by done.
  replace X with ({[j]} ∪ X ∖ {[j]}) at 2.
  2:{ apply set_eq. intros z. rewrite elem_of_union, elem_of_difference,
        elem_of_singleton. destruct (decide (z = j)); naive_solver. }
  rewrite (desc_ranks_insert _ i ki) by set_solver.
  rewrite (desc_ranks_insert _ j kj) by set_solver.
  by apply desc_insert_lex_lt.
Qed.

Lemma subset_image_recursion_decreases_witness :
  rank (_sorting (algebra_of two_triangles None)) 0
    < rank (_sorting (algebra_of two_triangles None)) 4
  ∧ set_lex_lt (_sorting (algebra_of two_triangles None))
      (symmetric_difference {[2; 3; 4]} {[0; 4]}) {[2; 3; 4]}.
Proof.
  apply (subset_image_recursion_decreases two_triangles None
           (algebra_of two_triangles None) {[2; 3; 4]} {[3; 4]} 0 4).
  - init_compute.
  - by_compute.
  - by_compute.
  - by_compute.
  - by_compute.
Defined.

Lemma elem_of_desc_insert x k l : x ∈ desc_insert k l ↔ x = k ∨ x ∈ l.
Proof.
  induction l as [|h l IH]; simpl.
  - rewrite list_elem_of_singleton. split; [by left|].
    by intros [?|?%elem_of_nil].
  - case_decide; rewrite !elem_of_cons; [done|]. rewrite IH. tauto.
Qed.

Lemma desc_insert_sorted k l :
  StronglySorted (λ a b, b < a) l → k ∉ l →
  StronglySorted (λ a b, b < a) (desc_insert k l).
Proof.
  induction 1 as [|h l Hs IH Hall]; intros Hk; simpl.
  { repeat constructor. }
  apply not_elem_of_cons in Hk as [Hkh Hk]. case_decide.
  - constructor; [by constructor|]. constructor; [done|].
    eapply Forall_impl; [exact Hall|]. simpl. lia.
  - constructor; [by apply IH|]. apply Forall_forall.
    intros x [->|Hx]%elem_of_desc_insert; [lia|].
    rewrite Forall_forall in Hall. by apply Hall.
Qed.

Lemma elem_of_foldr_desc_insert k l : k ∈ foldr desc_insert [] l → k ∈ l.
Proof.
  induction l as [|h t IH]; simpl; [done|].
  intros [->|Hin]%elem_of_desc_insert; [by left|right; auto].
Qed.

Lemma desc_ranks_sorted sorting X :
  sorting_inj sorting → StronglySorted (λ a b, b < a) (desc_ranks sorting X).
Proof.
  intros Hinj. unfold desc_ranks.
  pose proof (NoDup_elements X) as Hnd.
  induction Hnd as [|x l Hx Hnd IH]; simpl; [constructor|].
  destruct (sorting !! x) as [k|] eqn:Hk; simpl; [|exact IH].
  apply desc_insert_sorted; [exact IH|]. intros Hin.
  apply elem_of_foldr_desc_insert in Hin.
  apply (list_elem_of_omap (λ y, sorting !! y)) in Hin as (y & Hy & Hyk).
  by rewrite (Hinj x y k Hk Hyk) in Hx.
Qed.

Lemma weight_bound h t :
  StronglySorted (λ a b, b < a) (h :: t) → weight (h :: t) < 2 ^ S h.
Proof.
  revert h. induction t as [|h' t IH]; intros h Hs.
  - unfold weight. simpl. pose proof (Nat.pow_nonzero 2 h). lia.
  - apply StronglySorted_inv in Hs as [Hs Hall].
    apply Forall_cons in Hall as [Hlt _].
    specialize (IH h' Hs). unfold weight in *. cbn [sum_list_with] in *.
    assert (2 ^ S h' ≤ 2 ^ h) by (apply Nat.pow_le_mono_r; lia).
    rewrite Nat.pow_succ_r'. lia.
Qed.

Lemma lex_lt_weight l l' :
  StronglySorted (λ a b, b < a) l → StronglySorted (λ a b, b < a) l' →
  lex_lt l l' → weight l < weight l'.
Proof.
  intros Hl Hl' Hlt. induction Hlt as [y l'|x y l l' Hxy|x l l' Hlt IH].
  - unfold weight. simpl. pose proof (Nat.pow_nonzero 2 y). lia.
  - pose proof (weight_bound x l Hl).
    assert (2 ^ S x ≤ 2 ^ y) by (apply Nat.pow_le_mono_r; lia).
    unfold weight in *. cbn [sum_list_with] in *. lia.
  - apply StronglySorted_inv in Hl as [Hl _].
    apply StronglySorted_inv in Hl' as [Hl' _].
    specialize (IH Hl Hl'). unfold weight in *. cbn [sum_list_with] in *.
    lia.
Qed.

(** X20.  After construction the order in which [subset_image] recurses
    is well founded: there is no infinite chain of sets, each before
    the previous one when compared lexicographically on their ranks
    listed in descending order. *)
Theorem set_lex_lt_well_founded (M : Matroid) (ordering : option (list nat))
    (A : OrlikSolomonAlgebra) :
  __init__ M ordering = Ok A →
  well_founded (set_lex_lt (_sorting A)).
Proof.
  intros (_ & [Hinj _] & _)%init_inv.
  apply (well_founded_lt_compat _ (λ X, weight (desc_ranks (_sorting A) X))).
  intros X Y Hlt. apply lex_lt_weight; [by apply desc_ranks_sorted..|done].
Qed.

Lemma set_lex_lt_well_founded_witness :
  well_founded (set_lex_lt (_sorting (algebra_of two_triangles None))).
Proof.
  apply (set_lex_lt_well_founded two_triangles None). init_compute.
Defined.
